(** * MetalPathTracer: RayTracing/Common.h

    A shallow embedding of the shader-side helpers of [Common.h]: the integer
    hash [Hash], the counter-based generator [RngNext] / [Rand] / [InitCRND]
    over the [CRNG] state, and the two [Interpolate] overloads over [Vertex].

    - [uint] is a [Z] in [[0, 2^32)]; every operation that can leave that
      range in C ([*] and [<<]) is followed by an explicit reduction
      modulo [2^32].
    - [thread CRNG&] parameters are threaded through a state monad.
    - [float] is IEEE-754 binary32, given by the [SpecFloat] operations at
      precision 24 and maximal exponent 128; every [+], [-] and [*] is
      rounded to nearest even on its own, and there is one NaN. *)

From Stdlib Require Import ZArith Lia Bool List SpecFloat.
From ExtLib Require Import Structures.Monad Structures.MonadState Data.Monads.StateMonad.
Import ListNotations.
Import MonadNotation.
Local Open Scope monad_scope.
Local Open Scope Z_scope.

(** ** 32-bit unsigned words *)

Module U32.

Definition modulus : Z := 2 ^ 32.

Definition wrap (a : Z) : Z := a mod modulus.

(** The values a [uint] can hold. *)
Definition in_range (a : Z) : Prop := 0 <= a < modulus.

Definition mul (a b : Z) : Z := wrap (a * b).
Definition shl (a n : Z) : Z := wrap (Z.shiftl a n).
Definition shr (a n : Z) : Z := Z.shiftr a n.
Definition xor (a b : Z) : Z := Z.lxor a b.
Definition or (a b : Z) : Z := Z.lor a b.

End U32.

Declare Scope u32_scope.
Delimit Scope u32_scope with u32.
Arguments U32.mul (a b)%_u32.
Arguments U32.shl (a n)%_u32.
Arguments U32.shr (a n)%_u32.
Arguments U32.xor (a b)%_u32.
Arguments U32.or (a b)%_u32.
Infix "*" := U32.mul : u32_scope.
Infix "<<" := U32.shl (at level 32, left associativity) : u32_scope.
Infix ">>" := U32.shr (at level 32, left associativity) : u32_scope.
Infix "^" := U32.xor : u32_scope.
Infix ".|" := U32.or (at level 45, left associativity) : u32_scope.

(** ** Data layout *)

Record uint2 := mk_uint2 { x : Z; y : Z }.

(** [struct CRNG { uint2 Seed; }] *)
Record CRNG := mk_CRNG { Seed : uint2 }.

Definition uint2_in_range (v : uint2) : Prop :=
  U32.in_range (x v) /\ U32.in_range (y v).

Definition CRNG_in_range (rng : CRNG) : Prop := uint2_in_range (Seed rng).

(** Field stores [rng.Seed.x = v] and [rng.Seed.y = v]. *)
Definition set_Seed_x (v : Z) (rng : CRNG) : CRNG :=
  mk_CRNG (mk_uint2 v (y (Seed rng))).
Definition set_Seed_y (v : Z) (rng : CRNG) : CRNG :=
  mk_CRNG (mk_uint2 (x (Seed rng)) v).

(** ** Integer hash *)

Definition Hash (seed : Z) : Z :=
  let seed := ((seed ^ 61) ^ (seed >> 16))%u32 in
  let seed := (seed * 9)%u32 in
  let seed := (seed ^ (seed >> 4))%u32 in
  let seed := (seed * 0x27d4eb2d)%u32 in
  let seed := (seed ^ (seed >> 15))%u32 in
  seed.

(** ** Generator step *)

Definition Seed_x : state CRNG Z := rng <- get ;; ret (x (Seed rng)).
Definition Seed_y : state CRNG Z := rng <- get ;; ret (y (Seed rng)).
Definition store_Seed_x (v : Z) : state CRNG unit := modify (set_Seed_x v) ;; ret tt.
Definition store_Seed_y (v : Z) : state CRNG unit := modify (set_Seed_y v) ;; ret tt.

Definition RngNext : state CRNG Z :=
  sx <- Seed_x ;;
  let result := (sx * 0x9e3779bb)%u32 in
  (sy <- Seed_y ;; sx <- Seed_x ;; store_Seed_y (sy ^ sx)%u32) ;;
  (sx <- Seed_x ;; sy <- Seed_y ;;
   store_Seed_x ((((sx << 26) .| (sx >> (32 - 26))) ^ sy) ^ (sy << 9))%u32) ;;
  (sx <- Seed_x ;; store_Seed_y ((sx << 13) .| (sx >> (32 - 13)))%u32) ;;
  ret result.

(** ** Generator construction *)

Definition InitCRND (id : uint2) (frameIndex : Z) : CRNG :=
  let s0 := ((x id << 16) .| y id)%u32 in
  let s1 := frameIndex in
  let rng := mk_CRNG (mk_uint2 (Hash s0) (Hash s1)) in
  execState RngNext rng.

(** ** binary32 floats *)

Module F32.

Definition prec : Z := 24.
Definition emax : Z := 128.

Definition add : spec_float -> spec_float -> spec_float := SFadd prec emax.
Definition sub : spec_float -> spec_float -> spec_float := SFsub prec emax.
Definition mul : spec_float -> spec_float -> spec_float := SFmul prec emax.

Definition eqb : spec_float -> spec_float -> bool := SFeqb.
Definition ltb : spec_float -> spec_float -> bool := SFltb.
Definition leb : spec_float -> spec_float -> bool := SFleb.

(** The literals [0.0f] and [1.0f]. *)
Definition zero : spec_float := S754_zero false.
Definition one : spec_float := S754_finite false 0x800000 (-23).

(** A float is a value of the format when it is canonical for it. *)
Definition valid (f : spec_float) : bool := valid_binary prec emax f.

Definition finite (f : spec_float) : bool :=
  match f with
  | S754_zero _ | S754_finite _ _ _ => true
  | S754_infinity _ | S754_nan => false
  end.

End F32.

Declare Scope f32_scope.
Delimit Scope f32_scope with f32.
Arguments F32.add (_ _)%_f32.
Arguments F32.sub (_ _)%_f32.
Arguments F32.mul (_ _)%_f32.
Infix "+" := F32.add : f32_scope.
Infix "-" := F32.sub : f32_scope.
Infix "*" := F32.mul : f32_scope.

(** Modelled from the spec: the Metal built-in [as_type<float>(u)], which
    the source calls and does not define. It reinterprets the 32-bit
    pattern [u] as an IEEE-754 binary32 float: sign bit 31, biased
    exponent bits 30..23, fraction bits 22..0. *)
Definition as_type_float (u : Z) : spec_float :=
  let sign := Z.testbit u 31 in
  let biased := Z.land (Z.shiftr u 23) 0xff in
  let fraction := Z.land u 0x7fffff in
  if biased =? 0 then
    match fraction with
    | Zpos m => S754_finite sign m (-149)
    | _ => S754_zero sign
    end
  else if biased =? 0xff then
    if fraction =? 0 then S754_infinity sign else S754_nan
  else
    match Z.lor fraction 0x800000 with
    | Zpos m => S754_finite sign m (biased - 150)
    | _ => S754_nan
    end.

(** ** Uniform float in the unit interval *)

(** The literal [1.0] is exactly representable, so subtracting it in
    binary32 gives the value the source computes. *)
Definition Rand : state CRNG spec_float :=
  r <- RngNext ;;
  let u := (0x3f800000 .| (r >> 9))%u32 in
  ret (as_type_float u - F32.one)%f32.

(** ** Vertices and barycentric interpolation *)

Record float2 := mk_float2 { float2_x : spec_float; float2_y : spec_float }.

Record float3 := mk_float3
  { float3_x : spec_float; float3_y : spec_float; float3_z : spec_float }.

Module Vec.

(** [packed_float3 * float] and [packed_float3 + packed_float3]. *)
Definition scale3 (a : float3) (s : spec_float) : float3 :=
  mk_float3 (float3_x a * s)%f32 (float3_y a * s)%f32 (float3_z a * s)%f32.
Definition add3 (a b : float3) : float3 :=
  mk_float3 (float3_x a + float3_x b)%f32 (float3_y a + float3_y b)%f32
            (float3_z a + float3_z b)%f32.

(** [packed_float2 * float] and [packed_float2 + packed_float2]. *)
Definition scale2 (a : float2) (s : spec_float) : float2 :=
  mk_float2 (float2_x a * s)%f32 (float2_y a * s)%f32.
Definition add2 (a b : float2) : float2 :=
  mk_float2 (float2_x a + float2_x b)%f32 (float2_y a + float2_y b)%f32.

End Vec.

Declare Scope vec3_scope.
Delimit Scope vec3_scope with vec3.
Arguments Vec.scale3 a%_vec3 s%_f32.
Arguments Vec.add3 (a b)%_vec3.
Infix "*" := Vec.scale3 : vec3_scope.
Infix "+" := Vec.add3 : vec3_scope.

Declare Scope vec2_scope.
Delimit Scope vec2_scope with vec2.
Arguments Vec.scale2 a%_vec2 s%_f32.
Arguments Vec.add2 (a b)%_vec2.
Infix "*" := Vec.scale2 : vec2_scope.
Infix "+" := Vec.add2 : vec2_scope.

Record Vertex := mk_Vertex
  { position : float3; normal : float3; texcoord : float2 }.

(** [Interpolate(v0, v1, v2, float3 barycentric)] *)
Definition Interpolate_float3 (v0 v1 v2 : Vertex) (barycentric : float3) : Vertex :=
  let u := float3_x barycentric in
  let v := float3_y barycentric in
  let w := float3_z barycentric in
  mk_Vertex
    (position v0 * u + position v1 * v + position v2 * w)%vec3
    (normal v0 * u + normal v1 * v + normal v2 * w)%vec3
    (texcoord v0 * u + texcoord v1 * v + texcoord v2 * w)%vec2.

(** [Interpolate(v0, v1, v2, float2 barycentric)] *)
Definition Interpolate_float2 (v0 v1 v2 : Vertex) (barycentric : float2) : Vertex :=
  let u := float2_x barycentric in
  let v := float2_y barycentric in
  let w := (F32.one - u - v)%f32 in
  mk_Vertex
    (position v0 * u + position v1 * v + position v2 * w)%vec3
    (normal v0 * u + normal v1 * v + normal v2 * w)%vec3
    (texcoord v0 * u + texcoord v1 * v + texcoord v2 * w)%vec2.

(** ** Runs of the generator *)

(** [n] successive calls of [RngNext] on one state, oldest output first. *)
Fixpoint RngNext_seq (n : nat) : state CRNG (list Z) :=
  match n with
  | O => ret []
  | S n' => r <- RngNext ;; rs <- RngNext_seq n' ;; ret (r :: rs)
  end.

Definition zero_state : CRNG := mk_CRNG (mk_uint2 0 0).

(** Pairwise distinctness of a list of words, as a test. *)
Fixpoint distinctb (l : list Z) : bool :=
  match l with
  | [] => true
  | a :: l' => negb (existsb (Z.eqb a) l') && distinctb l'
  end.

(** ** The generator as the specification words it *)

Module Spec.

Definition rotateLeft32 (a n : Z) : Z :=
  Z.lor (Z.shiftl a n mod 2 ^ 32) (Z.shiftr a (32 - n)).

(** One step: the returned word, then the new [(seedX, seedY)]. *)
Definition next (seedX seedY : Z) : Z * (Z * Z) :=
  let result := (seedX * 0x9e3779bb) mod 2 ^ 32 in
  let seedY' := Z.lxor seedY seedX in
  let seedX'' :=
    Z.lxor (Z.lxor (rotateLeft32 seedX 26) seedY') (Z.shiftl seedY' 9 mod 2 ^ 32) in
  let seedY'' := rotateLeft32 seedX'' 13 in
  (result, (seedX'', seedY'')).

(** Seed from the two hashes, then one discarded step. *)
Definition initRng (id_x id_y frameIndex : Z) : Z * Z :=
  let packedId := Z.lor (Z.shiftl id_x 16 mod 2 ^ 32) id_y in
  snd (next (Hash packedId) (Hash frameIndex)).

(** An xor-shift stage [s ^ (s >> n)] or [s ^ (s << n)]. *)
Inductive direction := Left | Right.

Definition xor_shift (d : direction) (n : Z) (s : Z) : Z :=
  match d with
  | Right => Z.lxor s (Z.shiftr s n)
  | Left => Z.lxor s (Z.shiftl s n mod 2 ^ 32)
  end.

(** The five stages, and nothing else, for given shift stages. *)
Definition hash_stages (st1 st2 st3 : direction * Z) (seed : Z) : Z :=
  let s := xor_shift (fst st1) (snd st1) seed in
  let s := (s * 9) mod 2 ^ 32 in
  let s := xor_shift (fst st2) (snd st2) s in
  let s := (s * 0x27d4eb2d) mod 2 ^ 32 in
  xor_shift (fst st3) (snd st3) s.

(** The five stages with the constant 61 folded into the first one. *)
Definition hash_stages_61 (seed : Z) : Z :=
  let s := Z.lxor (xor_shift Right 16 seed) 61 in
  let s := (s * 9) mod 2 ^ 32 in
  let s := xor_shift Right 4 s in
  let s := (s * 0x27d4eb2d) mod 2 ^ 32 in
  xor_shift Right 15 s.

End Spec.

(** ** Inverting the hash *)

Definition xorshr (k : Z) (s : Z) : Z := (s ^ (s >> k))%u32.

(** Multiplicative inverses modulo [2^32] of the two odd constants. *)
Definition inv_9 : Z := 0x38e38e39.
Definition inv_27d4eb2d : Z := 0xfb699ca5.

Definition Hash_inv (h : Z) : Z :=
  let s := xorshr 30 (xorshr 15 h) in
  let s := (s * inv_27d4eb2d)%u32 in
  let s := xorshr 16 (xorshr 8 (xorshr 4 s)) in
  let s := (s * inv_9)%u32 in
  xorshr 16 (s ^ 61)%u32.

(** ** Well-formed and finite vertices *)

Definition float3_all (P : spec_float -> bool) (a : float3) : bool :=
  P (float3_x a) && P (float3_y a) && P (float3_z a).

Definition float2_all (P : spec_float -> bool) (a : float2) : bool :=
  P (float2_x a) && P (float2_y a).

Definition Vertex_all (P : spec_float -> bool) (v : Vertex) : bool :=
  float3_all P (position v) && float3_all P (normal v) && float2_all P (texcoord v).

(** Every field is a binary32 value. *)
Definition Vertex_valid (v : Vertex) : Prop := Vertex_all F32.valid v = true.

(** Every field is a zero or a finite number: no infinity, no NaN. *)
Definition Vertex_finite (v : Vertex) : Prop := Vertex_all F32.finite v = true.

(** [r] is [a] itself, except that a negative zero may have become the
    positive zero. *)
Definition agrees (r a : spec_float) : Prop :=
  r = a \/ (a = S754_zero true /\ r = S754_zero false).

Definition float3_agrees (r a : float3) : Prop :=
  agrees (float3_x r) (float3_x a) /\ agrees (float3_y r) (float3_y a) /\
  agrees (float3_z r) (float3_z a).

Definition float2_agrees (r a : float2) : Prop :=
  agrees (float2_x r) (float2_x a) /\ agrees (float2_y r) (float2_y a).

Definition Vertex_agrees (r a : Vertex) : Prop :=
  float3_agrees (position r) (position a) /\
  float3_agrees (normal r) (normal a) /\
  float2_agrees (texcoord r) (texcoord a).

(** No field is a NaN. *)
Definition not_nan (f : spec_float) : bool :=
  match f with
  | S754_nan => false
  | _ => true
  end.

Definition Vertex_no_nan (v : Vertex) : Prop := Vertex_all not_nan v = true.

(** [r == a] as floats compare, and [r] is the value [a] itself unless
    [a] is the negative zero. *)
Definition same_number (r a : spec_float) : Prop :=
  F32.eqb r a = true /\ agrees r a.

Definition float3_same (r a : float3) : Prop :=
  same_number (float3_x r) (float3_x a) /\ same_number (float3_y r) (float3_y a) /\
  same_number (float3_z r) (float3_z a).

Definition float2_same (r a : float2) : Prop :=
  same_number (float2_x r) (float2_x a) /\ same_number (float2_y r) (float2_y a).

Definition Vertex_same (r a : Vertex) : Prop :=
  float3_same (position r) (position a) /\
  float3_same (normal r) (normal a) /\
  float2_same (texcoord r) (texcoord a).

(** The weight triples [(1,0,0)], [(0,1,0)], [(0,0,1)]. *)
Definition weights_100 : float3 := mk_float3 F32.one F32.zero F32.zero.
Definition weights_010 : float3 := mk_float3 F32.zero F32.one F32.zero.
Definition weights_001 : float3 := mk_float3 F32.zero F32.zero F32.one.

(** Sample vertices. *)
Definition quarter : spec_float := S754_finite false 0x800000 (-25).
Definition origin_Vertex : Vertex :=
  mk_Vertex (mk_float3 F32.zero F32.zero F32.zero)
            (mk_float3 F32.zero F32.zero F32.zero)
            (mk_float2 F32.zero F32.zero).
Definition far_Vertex : Vertex :=
  mk_Vertex (mk_float3 (S754_infinity false) F32.zero F32.zero)
            (mk_float3 F32.zero F32.zero F32.zero)
            (mk_float2 F32.zero F32.zero).
Definition negzero_Vertex : Vertex :=
  mk_Vertex (mk_float3 (S754_zero true) F32.zero F32.zero)
            (mk_float3 F32.zero F32.zero F32.zero)
            (mk_float2 F32.zero F32.zero).
Definition sample_Vertex : Vertex :=
  mk_Vertex (mk_float3 quarter F32.one (S754_zero true))
            (mk_float3 F32.zero (S754_finite true 0xc00000 (-22)) quarter)
            (mk_float2 quarter F32.one).

(** ** Notions for runs, seeds and reachable states *)

(** The word [s0] that [InitCRND] hashes into [Seed.x]. *)
Definition packed_id (id : uint2) : Z := ((x id << 16) .| y id)%u32.

(** States whose [Seed.y] is [Seed.x] rotated left by 13, as the last
    store of [RngNext] leaves them. *)
Definition seedY_follows_seedX (rng : CRNG) : Prop :=
  y (Seed rng) = ((x (Seed rng) << 13) .| (x (Seed rng) >> (32 - 13)))%u32.

(** The state with [Seed.x = t] that a step can leave. *)
Definition state_of_seedX (t : Z) : CRNG :=
  mk_CRNG (mk_uint2 t ((t << 13) .| (t >> (32 - 13)))%u32).

(** The inverse modulo [2^32] of the output multiplier. *)
Definition inv_9e3779bb : Z := 0xbe736373.

(** The xor-shift to the left of the step, [s ^ (s << k)]. *)
Definition xorshl (k : Z) (s : Z) : Z := (s ^ (s << k))%u32.

(** The frame index at which the work item [id] is seeded with
    [Seed.x = t]. *)
Definition frame_reaching (id : uint2) (t : Z) : Z :=
  let sx := Hash (packed_id id) in
  let r := (t ^ ((sx << 26) .| (sx >> (32 - 26))))%u32 in
  Hash_inv (xorshl 9 (xorshl 18 r) ^ sx)%u32.

(** The state in which every bit is set. *)
Definition ones_state : CRNG := mk_CRNG (mk_uint2 0xffffffff 0xffffffff).

(** ** The float of a word *)

(** What [Rand] makes of the word [w] that [RngNext] returned. *)
Definition unit_float (w : Z) : spec_float :=
  (as_type_float (0x3f800000 .| (w >> 9))%u32 - F32.one)%f32.

(** [1 - 2^-23], the float below [1.0f] with an even 24-bit mantissa. *)
Definition largest_unit_float : spec_float := S754_finite false 0xfffffe (-24).

(** ** The step as a map that respects xor *)

(** What the new [Seed.x] takes from the old [Seed.x] alone: the rotation
    by 26 and the xor-shift by 9 of the step. *)
Definition seedX_mix (sx : Z) : Z :=
  (((sx << 26) .| (sx >> (32 - 26))) ^ xorshl 9 sx)%u32.

(** For a state with [Seed.y] the rotation by 13 of [Seed.x = sx]: the
    xor of the new [Seed.x] with the old one. *)
Definition seedX_change (sx : Z) : Z :=
  let sy := ((sx << 13) .| (sx >> (32 - 13)))%u32 in
  ((((sx << 26) .| (sx >> (32 - 26))) ^ xorshl 9 (sy ^ sx)%u32) ^ sx)%u32.

Definition linear_on_words (G : Z -> Z) : Prop :=
  forall a b : Z,
    U32.in_range a -> U32.in_range b -> G (a ^ b)%u32 = (G a ^ G b)%u32.

(** The xor of the columns selected by the bits of [z], from bit [i] on. *)
Fixpoint xor_columns (cols : list Z) (i : Z) (z : Z) : Z :=
  match cols with
  | [] => 0
  | c :: cs => ((if Z.testbit z i then c else 0) ^ xor_columns cs (i + 1) z)%u32
  end.

(** Column [i] is the word whose [seedX_mix] is [2^i]. *)
Definition seedX_mix_inverse : list Z :=
  [
   0x532d30c2; 0xa65a6184; 0x45b05349; 0x8b60a692;
   0x1fc5dd65; 0x6ca68a08; 0xd94d1410; 0xbb9eb861;
   0x2d14d041; 0x5a29a082; 0xb4534104; 0x61a21249;
   0xc3442492; 0x8f8cd965; 0x45301249; 0x8a602492;
   0x1dc4d965; 0x68a48208; 0xd1490410; 0xab969861;
   0x0d049041; 0x1a092082; 0x34124104; 0x68248208;
   0xd0490410; 0xa9969861; 0x09049041; 0x12092082;
   0x24124104; 0x48248208; 0x90490410; 0x29969861 ].

(** Columns that take [seedX_change sx] back to [sx], up to the all-ones
    word. *)
Definition seedX_change_inverse : list Z :=
  [
   0xeab355de; 0x00000000; 0x6feafece; 0xb03f0352;
   0x1ad8524a; 0x5a5a5a5a; 0xdb5e4a7a; 0x26a995c4;
   0x22b9d546; 0x2a995442; 0x3ad8564a; 0x1a5a525a;
   0x5b5e5a7a; 0xf3cf1e78; 0x1861c30e; 0x30c3861c;
   0x61870c38; 0xe9974c32; 0x433b9954; 0xe99dcc66;
   0x432e99fc; 0xc32e9974; 0x79a2cd16; 0xf3459a2c;
   0x1974cba6; 0x1870c30e; 0x5f0b78d2; 0xd1fc0f6a;
   0x33ed1fe4; 0x22a99544; 0x45532a88; 0x8aa65510 ].

(** [z], with every bit flipped when bit 0 of [z] is set. *)
Definition modulo_ones (z : Z) : Z :=
  (z ^ (if Z.testbit z 0 then 0xffffffff else 0))%u32.

(** ** Proof automation *)

(** Equations between xors of the same words, bit by bit. *)
Ltac xor_bits :=
  unfold U32.xor; apply Z.bits_inj';
  let i := fresh "i" in
  let Hi := fresh "Hi" in
  intros i Hi; rewrite !Z.lxor_spec, ?Z.bits_0;
  repeat match goal with
         | |- context [Z.testbit ?a i] => generalize (Z.testbit a i); intro
         end;
  repeat match goal with
         | b : bool |- _ => destruct b
         end;
  reflexivity.

(** Runs the monadic plumbing and the field stores, leaving the word
    operations as they are. *)
Ltac run_state :=
  cbn -[Z.mul Z.modulo Z.shiftl Z.shiftr Z.lxor Z.lor Z.land Z.pow Z.sub
        Z.testbit Z.eqb U32.mul U32.shl U32.shr U32.xor U32.or
        set_Seed_x set_Seed_y F32.sub F32.one];
  unfold set_Seed_x, set_Seed_y; cbn [Seed x y].

Create HintDb u32.

(** * Properties *)

(** ** Words stay words *)

Section WordFacts.

Lemma modulus_eq : U32.modulus = 4294967296.
Proof. reflexivity. Qed.

Lemma wrap_in_range a : U32.in_range (U32.wrap a).
Proof.
  unfold U32.in_range, U32.wrap. rewrite modulus_eq.
  apply Z.mod_pos_bound. lia.
Qed.

Lemma wrap_small a : U32.in_range a -> U32.wrap a = a.
Proof. unfold U32.in_range, U32.wrap. intros H. now apply Z.mod_small. Qed.

Lemma high_bits_clear a i : U32.in_range a -> 32 <= i -> Z.testbit a i = false.
Proof.
  intros Ha Hi. rewrite <- (wrap_small a Ha). unfold U32.wrap, U32.modulus.
  apply Z.mod_pow2_bits_high. lia.
Qed.

Lemma in_range_of_bits a :
  0 <= a -> (forall i, 32 <= i -> Z.testbit a i = false) -> U32.in_range a.
Proof.
  intros Ha Hbits.
  assert (E : a = U32.wrap a).
  { apply Z.bits_inj'. intros i Hi. unfold U32.wrap, U32.modulus.
    destruct (Z_lt_le_dec i 32) as [Hlt | Hge].
    - now rewrite Z.mod_pow2_bits_low.
    - rewrite Z.mod_pow2_bits_high by lia. now apply Hbits. }
  rewrite E. apply wrap_in_range.
Qed.

Lemma xor_in_range a b :
  U32.in_range a -> U32.in_range b -> U32.in_range (a ^ b)%u32.
Proof.
  intros Ha Hb. apply in_range_of_bits.
  - unfold U32.xor. apply Z.lxor_nonneg. unfold U32.in_range in *. lia.
  - intros i Hi. unfold U32.xor. rewrite Z.lxor_spec.
    now rewrite !high_bits_clear.
Qed.

Lemma or_in_range a b :
  U32.in_range a -> U32.in_range b -> U32.in_range (a .| b)%u32.
Proof.
  intros Ha Hb. apply in_range_of_bits.
  - unfold U32.or. apply Z.lor_nonneg. unfold U32.in_range in *. lia.
  - intros i Hi. unfold U32.or. rewrite Z.lor_spec.
    now rewrite !high_bits_clear.
Qed.

Lemma shr_in_range a n : U32.in_range a -> 0 <= n -> U32.in_range (a >> n)%u32.
Proof.
  intros Ha Hn. apply in_range_of_bits.
  - unfold U32.shr. apply Z.shiftr_nonneg. unfold U32.in_range in Ha. lia.
  - intros i Hi. unfold U32.shr. rewrite Z.shiftr_spec by lia.
    apply high_bits_clear; [assumption | lia].
Qed.

Lemma shl_in_range a n : U32.in_range (a << n)%u32.
Proof. apply wrap_in_range. Qed.

Lemma mul_in_range a b : U32.in_range (a * b)%u32.
Proof. apply wrap_in_range. Qed.

End WordFacts.

#[local] Hint Resolve xor_in_range or_in_range shr_in_range shl_in_range
  mul_in_range wrap_in_range : u32.

Lemma Hash_in_range seed : U32.in_range seed -> U32.in_range (Hash seed).
Proof.
  intros H. unfold Hash, U32.in_range.
  assert (U32.in_range 61) by (unfold U32.in_range; rewrite modulus_eq; lia).
  apply xor_in_range; auto 6 with u32 zarith.
  all: apply shr_in_range; auto with u32; lia.
Qed.

Lemma RngNext_in_range rng :
  CRNG_in_range rng ->
  U32.in_range (fst (runState RngNext rng)) /\
  CRNG_in_range (snd (runState RngNext rng)).
Proof.
  destruct rng as [[sx sy]]. intros [Hx Hy]. simpl in Hx, Hy.
  split; [apply mul_in_range |].
  split; cbn -[U32.shl U32.shr U32.xor U32.or Z.sub].
  - repeat first [apply xor_in_range | apply or_in_range | apply shl_in_range
                 | apply shr_in_range | assumption | lia].
  - repeat first [apply xor_in_range | apply or_in_range | apply shl_in_range
                 | apply shr_in_range | assumption | lia].
Qed.

(** ** The generator step *)

(** The monadic body of [RngNext], run on a state. *)
Lemma RngNext_run (sx sy : Z) :
  runState RngNext (mk_CRNG (mk_uint2 sx sy)) =
  let sy1 := (sy ^ sx)%u32 in
  let sx2 := ((((sx << 26) .| (sx >> (32 - 26))) ^ sy1) ^ (sy1 << 9))%u32 in
  ((sx * 0x9e3779bb)%u32,
   mk_CRNG (mk_uint2 sx2 ((sx2 << 13) .| (sx2 >> (32 - 13)))%u32)).
Proof.
  cbv zeta. run_state. reflexivity.
Qed.

Lemma Spec_next_words (seedX seedY : Z) :
  Spec.next seedX seedY =
  let sy1 := (seedY ^ seedX)%u32 in
  let sx2 := ((((seedX << 26) .| (seedX >> (32 - 26))) ^ sy1) ^ (sy1 << 9))%u32 in
  ((seedX * 0x9e3779bb)%u32, (sx2, ((sx2 << 13) .| (sx2 >> (32 - 13)))%u32)).
Proof.
  unfold Spec.next, Spec.rotateLeft32.
  unfold U32.mul, U32.shl, U32.shr, U32.xor, U32.or, U32.wrap, U32.modulus.
  reflexivity.
Qed.

(** C1: for every state [(seedX, seedY)], one call of [RngNext] returns
    [seedX * 0x9e3779bb] taken from the state before it is changed, and
    leaves the state [seedY' = seedY xor seedX],
    [seedX'' = rotl(seedX, 26) xor seedY' xor (seedY' << 9)],
    [seedY'' = rotl(seedX'', 13)], all on 32-bit words. *)
Theorem RngNext_spec (seedX seedY : Z) :
  runState RngNext (mk_CRNG (mk_uint2 seedX seedY)) =
  (fst (Spec.next seedX seedY),
   mk_CRNG (mk_uint2 (fst (snd (Spec.next seedX seedY)))
                     (snd (snd (Spec.next seedX seedY))))).
Proof. rewrite RngNext_run, Spec_next_words. cbv zeta. cbn [fst snd]. reflexivity. Qed.

(** ** Construction *)

(** C2: [InitCRND] seeds [seedX] with the hash of [(id.x << 16) | id.y] and
    [seedY] with the hash of [frameIndex], then advances the generator once
    and drops the word it produced. *)
Theorem InitCRND_spec (id : uint2) (frameIndex : Z) :
  let seeded := mk_CRNG (mk_uint2 (Hash ((x id << 16) .| y id)%u32) (Hash frameIndex)) in
  InitCRND id frameIndex = snd (runState RngNext seeded) /\
  Seed (InitCRND id frameIndex) =
    mk_uint2 (fst (Spec.initRng (x id) (y id) frameIndex))
             (snd (Spec.initRng (x id) (y id) frameIndex)).
Proof.
  cbv zeta. split; [reflexivity |].
  unfold InitCRND, Spec.initRng. cbv zeta.
  change (execState RngNext ?s) with (snd (runState RngNext s)).
  rewrite RngNext_run, Spec_next_words. cbv zeta. cbn [fst snd Seed]. reflexivity.
Qed.

Lemma InitCRND_in_range id frameIndex :
  uint2_in_range id -> U32.in_range frameIndex ->
  CRNG_in_range (InitCRND id frameIndex).
Proof.
  intros [Hx Hy] Hf. unfold InitCRND. cbv zeta.
  apply (RngNext_in_range (mk_CRNG (mk_uint2 _ _))).
  split; cbn [Seed x y]; apply Hash_in_range; auto with u32.
Qed.

(** ** The hash, stage by stage *)

Lemma xor_shift_0 d n : Spec.xor_shift d n 0 = 0.
Proof.
  destruct d; unfold Spec.xor_shift.
  - now rewrite Z.shiftl_0_l.
  - now rewrite Z.shiftr_0_l.
Qed.

Lemma hash_stages_0 st1 st2 st3 : Spec.hash_stages st1 st2 st3 0 = 0.
Proof.
  unfold Spec.hash_stages. cbv zeta.
  rewrite xor_shift_0. change (0 * 9 mod 2 ^ 32) with 0.
  rewrite xor_shift_0. change (0 * 0x27d4eb2d mod 2 ^ 32) with 0.
  apply xor_shift_0.
Qed.

Lemma Hash_at_0 : Hash 0 = 3232319850.
Proof. vm_compute. reflexivity. Qed.

(** C6, as stated, fails at seed 0: a chain of xor-shift, multiply by 9,
    xor-shift, multiply by 0x27d4eb2d, xor-shift and nothing else sends 0
    to 0 whatever the shifts are, and [Hash 0] is not 0. *)
Lemma Hash_not_pure_five_stages :
  ~ (exists st1 st2 st3, Spec.hash_stages st1 st2 st3 0 = Hash 0).
Proof.
  intros (st1 & st2 & st3 & H).
  rewrite hash_stages_0, Hash_at_0 in H. discriminate H.
Qed.

(** C6, amended: [Hash] is the five stages xor-shift right by 16, multiply
    by 9, xor-shift right by 4, multiply by 0x27d4eb2d, xor-shift right by
    15 on 32-bit words, where the first stage also xors in the constant 61. *)
Theorem Hash_five_stages_61 (seed : Z) : Hash seed = Spec.hash_stages_61 seed.
Proof.
  unfold Hash, Spec.hash_stages_61, Spec.xor_shift. cbv zeta.
  unfold U32.mul, U32.shr, U32.xor, U32.wrap, U32.modulus.
  replace (Z.lxor (Z.lxor seed 61) (Z.shiftr seed 16))
    with (Z.lxor (Z.lxor seed (Z.shiftr seed 16)) 61).
  - reflexivity.
  - rewrite !Z.lxor_assoc. f_equal. apply Z.lxor_comm.
Qed.

(** ** Distinct seeds *)

(** C8: [Hash 0] and [Hash 1] differ, and so do the states built for id
    (0,0) at frame 0 and at frame 1. *)
Theorem Hash_InitCRND_distinguish :
  Hash 0 <> Hash 1 /\
  InitCRND (mk_uint2 0 0) 0 <> InitCRND (mk_uint2 0 0) 1.
Proof. split; vm_compute; discriminate. Qed.

(** ** Runs *)

Lemma distinctb_NoDup (l : list Z) : distinctb l = true -> NoDup l.
Proof.
  induction l as [| a l IH]; simpl; intros H.
  - constructor.
  - apply andb_true_iff in H. destruct H as [Ha Hl].
    constructor; [| now apply IH].
    intros Hin. apply negb_true_iff in Ha.
    assert (E : existsb (Z.eqb a) l = true).
    { apply existsb_exists. exists a. split; [assumption | apply Z.eqb_refl]. }
    congruence.
Qed.

(** C7: there is a seed from which the first 1000 words of [RngNext] are
    pairwise distinct; the state built for id (0,0) at frame 0 is one. *)
Theorem RngNext_1000_distinct :
  exists rng : CRNG,
    CRNG_in_range rng /\
    length (evalState (RngNext_seq 1000) rng) = 1000%nat /\
    NoDup (evalState (RngNext_seq 1000) rng).
Proof.
  exists (InitCRND (mk_uint2 0 0) 0). split; [| split].
  - vm_compute. repeat split; discriminate.
  - vm_compute. reflexivity.
  - apply distinctb_NoDup. vm_compute. reflexivity.
Qed.

Lemma RngNext_zero_state : runState RngNext zero_state = (0, zero_state).
Proof. vm_compute. reflexivity. Qed.

Lemma RngNext_seq_S n rng :
  runState (RngNext_seq (S n)) rng =
  (fst (runState RngNext rng)
     :: fst (runState (RngNext_seq n) (snd (runState RngNext rng))),
   snd (runState (RngNext_seq n) (snd (runState RngNext rng)))).
Proof.
  change (RngNext_seq (S n))
    with (r <- RngNext ;; rs <- RngNext_seq n ;; ret (r :: rs)).
  cbn [runState bind ret Monad_state].
  destruct (runState RngNext rng) as [r rng1]. cbn [fst snd].
  destruct (runState (RngNext_seq n) rng1) as [rs rng2]. reflexivity.
Qed.

(** C9: the all-zero state is a fixed point: the step returns 0 and
    leaves the state (0, 0), so every later call returns 0 as well. *)
Theorem RngNext_zero_stuck :
  runState RngNext zero_state = (0, zero_state) /\
  forall n : nat, runState (RngNext_seq n) zero_state = (repeat 0 n, zero_state).
Proof.
  split; [exact RngNext_zero_state |].
  induction n as [| n IH].
  - reflexivity.
  - rewrite RngNext_seq_S, RngNext_zero_state. cbn [fst snd].
    rewrite IH. reflexivity.
Qed.

(** ** The hash is a bijection on words *)

Section HashInverse.

Lemma xorshr_bit k s i :
  0 <= k -> 0 <= i ->
  Z.testbit (xorshr k s) i = xorb (Z.testbit s i) (Z.testbit s (i + k)).
Proof.
  intros Hk Hi. unfold xorshr, U32.xor, U32.shr.
  now rewrite Z.lxor_spec, Z.shiftr_spec.
Qed.

Lemma xorshr_in_range k s : 0 <= k -> U32.in_range s -> U32.in_range (xorshr k s).
Proof. intros Hk Hs. unfold xorshr. auto with u32. Qed.

(** Applying the same xor-shift twice doubles the shift. *)
Lemma xorshr_twice k s : 0 <= k -> xorshr k (xorshr k s) = xorshr (2 * k) s.
Proof.
  intros Hk. apply Z.bits_inj'. intros i Hi.
  rewrite !xorshr_bit by lia.
  replace (i + k + k) with (i + 2 * k) by lia.
  destruct (Z.testbit s i), (Z.testbit s (i + k)), (Z.testbit s (i + 2 * k));
    reflexivity.
Qed.

Lemma xorshr_comm j k s :
  0 <= j -> 0 <= k -> xorshr j (xorshr k s) = xorshr k (xorshr j s).
Proof.
  intros Hj Hk. apply Z.bits_inj'. intros i Hi.
  rewrite !xorshr_bit by lia.
  replace (i + k + j) with (i + j + k) by lia.
  destruct (Z.testbit s i), (Z.testbit s (i + k)), (Z.testbit s (i + j)),
    (Z.testbit s (i + j + k)); reflexivity.
Qed.

(** A shift by the word size or more leaves nothing to xor in. *)
Lemma xorshr_high k s : U32.in_range s -> 32 <= k -> xorshr k s = s.
Proof.
  intros Hs Hk. apply Z.bits_inj'. intros i Hi.
  rewrite xorshr_bit by lia.
  rewrite (high_bits_clear s (i + k)) by (assumption || lia).
  apply xorb_false_r.
Qed.

Lemma mul_mul_inverse c c' s :
  (c * c') mod 2 ^ 32 = 1 -> U32.in_range s -> ((s * c) * c')%u32 = s.
Proof.
  intros Hc Hs. unfold U32.mul, U32.wrap, U32.modulus.
  rewrite Z.mul_mod_idemp_l by lia.
  rewrite <- Z.mul_assoc, <- Z.mul_mod_idemp_r by lia.
  rewrite Hc, Z.mul_1_r. now apply Z.mod_small.
Qed.

Lemma xor_xor_cancel s c : ((s ^ c) ^ c)%u32 = s.
Proof.
  unfold U32.xor. now rewrite Z.lxor_assoc, Z.lxor_nilpotent, Z.lxor_0_r.
Qed.

Lemma first_stage_xorshr s : ((s ^ 61) ^ (s >> 16))%u32 = (xorshr 16 s ^ 61)%u32.
Proof.
  unfold xorshr, U32.xor. rewrite !Z.lxor_assoc. f_equal. apply Z.lxor_comm.
Qed.

Lemma in_range_61 : U32.in_range 61.
Proof. unfold U32.in_range. rewrite modulus_eq. lia. Qed.

(** The three xor-shift stages undone. *)
Lemma un_xorshr_16 s : U32.in_range s -> xorshr 16 (xorshr 16 s) = s.
Proof. intros Hs. rewrite xorshr_twice by lia. now apply xorshr_high. Qed.

Lemma un_xorshr_4 s :
  U32.in_range s -> xorshr 16 (xorshr 8 (xorshr 4 (xorshr 4 s))) = s.
Proof.
  intros Hs. rewrite (xorshr_twice 4), (xorshr_twice 8) by lia.
  now apply un_xorshr_16.
Qed.

Lemma un_xorshr_15 s : U32.in_range s -> xorshr 30 (xorshr 15 (xorshr 15 s)) = s.
Proof.
  intros Hs. rewrite (xorshr_twice 15), (xorshr_twice 30) by lia.
  now apply xorshr_high.
Qed.

Lemma Hash_inv_in_range h : U32.in_range h -> U32.in_range (Hash_inv h).
Proof.
  intros Hh. unfold Hash_inv. cbv zeta.
  apply xorshr_in_range; [lia |].
  apply xor_in_range; [apply mul_in_range | apply in_range_61].
Qed.

Lemma Hash_inv_Hash a : U32.in_range a -> Hash_inv (Hash a) = a.
Proof.
  intros Ha. unfold Hash, Hash_inv. cbv zeta.
  rewrite first_stage_xorshr.
  fold (xorshr 4 (xorshr 16 a ^ 61 * 9)%u32).
  fold (xorshr 15 (xorshr 4 (xorshr 16 a ^ 61 * 9)%u32 * 0x27d4eb2d)%u32).
  rewrite un_xorshr_15 by apply mul_in_range.
  rewrite mul_mul_inverse;
    [| reflexivity | apply xorshr_in_range; [lia | apply mul_in_range]].
  rewrite un_xorshr_4 by apply mul_in_range.
  rewrite mul_mul_inverse;
    [| reflexivity
     | apply xor_in_range; [now apply xorshr_in_range | apply in_range_61]].
  rewrite xor_xor_cancel. now apply un_xorshr_16.
Qed.

Lemma Hash_Hash_inv h : U32.in_range h -> Hash (Hash_inv h) = h.
Proof.
  intros Hh. unfold Hash. cbv zeta. rewrite first_stage_xorshr.
  unfold Hash_inv. cbv zeta.
  set (s1 := xorshr 30 (xorshr 15 h)).
  set (s2 := (s1 * inv_27d4eb2d)%u32).
  set (s3 := xorshr 16 (xorshr 8 (xorshr 4 s2))).
  set (s4 := (s3 * inv_9)%u32).
  assert (H1 : U32.in_range s1) by (subst s1; auto using xorshr_in_range with zarith).
  assert (H3 : U32.in_range s3).
  { subst s3. repeat apply xorshr_in_range; try lia. apply mul_in_range. }
  rewrite un_xorshr_16
    by (apply xor_in_range; [apply mul_in_range | apply in_range_61]).
  rewrite xor_xor_cancel.
  subst s4. rewrite mul_mul_inverse by (reflexivity || assumption).
  fold (xorshr 4 s3).
  assert (E3 : xorshr 4 s3 = s2).
  { subst s3.
    rewrite (xorshr_comm 4 16), (xorshr_comm 4 8) by lia.
    apply un_xorshr_4, mul_in_range. }
  rewrite E3. subst s2. rewrite mul_mul_inverse by (reflexivity || assumption).
  fold (xorshr 15 s1). subst s1.
  rewrite (xorshr_comm 15 30) by lia. now apply un_xorshr_15.
Qed.

End HashInverse.

(** C10: [Hash] is a bijection on 32-bit words: it maps words to words,
    distinct words to distinct words, and every word is the hash of one. *)
Theorem Hash_bijective (a b : Z) :
  U32.in_range a -> U32.in_range b ->
  U32.in_range (Hash a) /\
  (a <> b -> Hash a <> Hash b) /\
  (exists c, U32.in_range c /\ Hash c = a).
Proof.
  intros Ha Hb. split; [now apply Hash_in_range | split].
  - intros Hne Heq. apply Hne.
    rewrite <- (Hash_inv_Hash a Ha), <- (Hash_inv_Hash b Hb). now rewrite Heq.
  - exists (Hash_inv a). split; [now apply Hash_inv_in_range | now apply Hash_Hash_inv].
Qed.

Lemma Hash_bijective_witness :
  U32.in_range 0 /\ U32.in_range 1 /\
  U32.in_range (Hash 0) /\
  (0 <> 1 -> Hash 0 <> Hash 1) /\
  (exists c, U32.in_range c /\ Hash c = 0).
Proof.
  assert (H0 : U32.in_range 0) by (unfold U32.in_range; rewrite modulus_eq; lia).
  assert (H1 : U32.in_range 1) by (unfold U32.in_range; rewrite modulus_eq; lia).
  split; [exact H0 | split; [exact H1 |]].
  exact (Hash_bijective 0 1 H0 H1).
Defined.

(** ** Interpolation: the two overloads *)

Lemma Interpolate_float2_as_float3 (v0 v1 v2 : Vertex) (u v : spec_float) :
  Interpolate_float2 v0 v1 v2 (mk_float2 u v) =
  Interpolate_float3 v0 v1 v2 (mk_float3 u v (F32.one - u - v)%f32).
Proof. unfold Interpolate_float2, Interpolate_float3. reflexivity. Qed.

(** C4: for all vertices and all floats [u], [v] with [u + v <= 1], the
    two-weight overload at [(u, v)] returns, field for field, the Vertex
    the three-weight overload returns at [(u, v, 1 - u - v)]. *)
Theorem Interpolate_overloads_agree (v0 v1 v2 : Vertex) (u v : spec_float) :
  F32.leb (u + v)%f32 F32.one = true ->
  Interpolate_float2 v0 v1 v2 (mk_float2 u v) =
  Interpolate_float3 v0 v1 v2 (mk_float3 u v (F32.one - u - v)%f32).
Proof. intros _. apply Interpolate_float2_as_float3. Qed.

Lemma Interpolate_overloads_agree_witness :
  F32.leb (quarter + quarter)%f32 F32.one = true /\
  Interpolate_float2 sample_Vertex far_Vertex origin_Vertex (mk_float2 quarter quarter) =
  Interpolate_float3 sample_Vertex far_Vertex origin_Vertex
    (mk_float3 quarter quarter (F32.one - quarter - quarter)%f32).
Proof.
  split; [reflexivity |].
  apply (Interpolate_overloads_agree sample_Vertex far_Vertex origin_Vertex
           quarter quarter).
  reflexivity.
Defined.

(** ** binary32 rounding of values that need none *)

Section Binary32.

Lemma fexp_eq (e : Z) : fexp F32.prec F32.emax e = Z.max (e - 24) (-149).
Proof. reflexivity. Qed.

Lemma bounded_spec (m : positive) (e : Z) :
  bounded F32.prec F32.emax m e = true <->
  Z.max (Zpos (digits2_pos m) + e - 24) (-149) = e /\ e <= 104.
Proof.
  unfold bounded, canonical_mantissa. rewrite fexp_eq, andb_true_iff.
  rewrite Z.eqb_eq, Z.leb_le. reflexivity.
Qed.

Lemma digits2_pos_lower (p : positive) :
  2 ^ (Zpos (digits2_pos p) - 1) <= Zpos p.
Proof.
  induction p as [p IH | p IH |]; cbn [digits2_pos].
  - rewrite Pos2Z.inj_succ.
    replace (Z.succ (Zpos (digits2_pos p)) - 1)
      with (Z.succ (Zpos (digits2_pos p) - 1)) by lia.
    rewrite Z.pow_succ_r by lia. lia.
  - rewrite Pos2Z.inj_succ.
    replace (Z.succ (Zpos (digits2_pos p)) - 1)
      with (Z.succ (Zpos (digits2_pos p) - 1)) by lia.
    rewrite Z.pow_succ_r by lia. lia.
  - simpl. lia.
Qed.

Lemma digits2_pos_le (p : positive) (n : Z) :
  0 <= n -> Zpos p < 2 ^ n -> Zpos (digits2_pos p) <= n.
Proof.
  intros Hn Hp. pose proof (digits2_pos_lower p) as Hlow.
  destruct (Z_le_gt_dec (Zpos (digits2_pos p)) n) as [Hle | Hgt]; [exact Hle |].
  exfalso.
  assert (2 ^ n <= 2 ^ (Zpos (digits2_pos p) - 1)) by (apply Z.pow_le_mono_r; lia).
  lia.
Qed.

Lemma digits2_pos_iter_xO (p n : positive) :
  digits2_pos (Pos.iter xO p n) = (digits2_pos p + n)%positive.
Proof.
  induction n as [| n IH] using Pos.peano_ind.
  - simpl. now rewrite Pos.add_1_r.
  - rewrite Pos.iter_succ. cbn [digits2_pos]. rewrite IH.
    now rewrite Pos.add_succ_r.
Qed.

Lemma shr_fexp_exact (m : positive) (e : Z) :
  bounded F32.prec F32.emax m e = true ->
  shr_fexp F32.prec F32.emax (Zpos m) e loc_Exact = (Build_shr_record (Zpos m) false false, e).
Proof.
  intros Hb. apply bounded_spec in Hb. destruct Hb as [Hc _].
  unfold shr_fexp. rewrite fexp_eq. cbn [Zdigits2 shr_record_of_loc].
  rewrite Hc, Z.sub_diag. reflexivity.
Qed.

(** Once the first shift has produced a canonical mantissa exactly,
    rounding returns it. *)
Lemma binary_round_aux_settled sx mx ex lx (m : positive) (e : Z) :
  shr_fexp F32.prec F32.emax mx ex lx = (Build_shr_record (Zpos m) false false, e) ->
  bounded F32.prec F32.emax m e = true ->
  binary_round_aux F32.prec F32.emax sx mx ex lx = S754_finite sx m e.
Proof.
  intros Hshr Hb. unfold binary_round_aux. rewrite Hshr.
  cbn [shr_m loc_of_shr_record round_nearest_even].
  rewrite (shr_fexp_exact m e Hb). cbn [shr_m].
  apply bounded_spec in Hb. destruct Hb as [_ Hle].
  change (F32.emax - F32.prec) with 104.
  now rewrite (proj2 (Z.leb_le e 104) Hle).
Qed.

Lemma binary_round_aux_canonical sx (m : positive) (e : Z) :
  bounded F32.prec F32.emax m e = true ->
  binary_round_aux F32.prec F32.emax sx (Zpos m) e loc_Exact = S754_finite sx m e.
Proof.
  intros Hb. apply binary_round_aux_settled; [now apply shr_fexp_exact | exact Hb].
Qed.

(** Multiplying by [1.0f] changes no binary32 value. *)
Lemma mul_one (a : spec_float) : F32.valid a = true -> (a * F32.one)%f32 = a.
Proof.
  destruct a as [s | s | | s m e]; intros Hv;
    try (destruct s; reflexivity); try reflexivity.
  unfold F32.valid in Hv. cbn [valid_binary] in Hv.
  unfold F32.mul, F32.one. cbn [SFmul]. rewrite xorb_false_r.
  apply binary_round_aux_settled; [| exact Hv].
  apply bounded_spec in Hv. destruct Hv as [Hc _].
  rewrite Pos.mul_comm. cbn [Pos.mul].
  unfold shr_fexp. rewrite fexp_eq. cbn [Zdigits2 digits2_pos shr_record_of_loc].
  replace (Z.max (Zpos (Pos.succ (Pos.succ (Pos.succ (Pos.succ (Pos.succ
    (Pos.succ (Pos.succ (Pos.succ (Pos.succ (Pos.succ (Pos.succ (Pos.succ
    (Pos.succ (Pos.succ (Pos.succ (Pos.succ (Pos.succ (Pos.succ (Pos.succ
    (Pos.succ (Pos.succ (Pos.succ (Pos.succ (digits2_pos m))))))))))))))))))))))))
    + (e + -23) - 24) (-149) - (e + -23)) with 23 by lia.
  unfold shr. cbn [iter_pos shr_1 orb]. f_equal. lia.
Qed.

Lemma shl_align_lower (mx : positive) (ex ex' : Z) :
  ex' < ex -> shl_align mx ex ex' = (Pos.iter xO mx (Z.to_pos (ex - ex')), ex').
Proof.
  intros Hlt. unfold shl_align.
  destruct (ex' - ex) as [| d | d] eqn:E; try lia.
  replace (ex - ex') with (Zpos d) by lia. reflexivity.
Qed.

(** A positive integer below [2^23], scaled by [2^-23], is a binary32
    value: rounding only normalises it. *)
Lemma binary_round_fraction (q : positive) :
  Zpos q < 2 ^ 23 ->
  binary_round F32.prec F32.emax false q (-23) =
  S754_finite false
    (Pos.iter xO q (Z.to_pos (24 - Zpos (digits2_pos q))))
    (Zpos (digits2_pos q) - 47).
Proof.
  intros Hq. pose proof (digits2_pos_le q 23 ltac:(lia) Hq) as Hd.
  unfold binary_round. rewrite fexp_eq.
  replace (Z.max (Zpos (digits2_pos q) + -23 - 24) (-149))
    with (Zpos (digits2_pos q) - 47) by lia.
  rewrite shl_align_lower by lia.
  replace (-23 - (Zpos (digits2_pos q) - 47)) with (24 - Zpos (digits2_pos q)) by lia.
  apply binary_round_aux_canonical, bounded_spec.
  rewrite digits2_pos_iter_xO. lia.
Qed.

End Binary32.

(** ** Floats in the unit interval *)

Section UnitInterval.

Lemma bits_above (m k i : Z) :
  0 <= k -> 0 <= m < 2 ^ k -> k <= i -> Z.testbit m i = false.
Proof.
  intros Hk Hm Hi. rewrite <- (Z.mod_small m (2 ^ k)) by exact Hm.
  apply Z.mod_pow2_bits_high. lia.
Qed.

(** Or-ing a 23-bit fraction under higher bits adds it. *)
Lemma lor_fraction (a m : Z) :
  0 <= m < 2 ^ 23 -> Z.lor (Z.shiftl a 23) m = Z.shiftl a 23 + m.
Proof.
  intros Hm.
  assert (Hland : Z.land (Z.shiftl a 23) m = 0).
  { apply Z.bits_inj'. intros i Hi. rewrite Z.land_spec, Z.bits_0.
    destruct (Z_lt_le_dec i 23) as [Hlt | Hge].
    - rewrite Z.shiftl_spec_low by exact Hlt. reflexivity.
    - rewrite (bits_above m 23 i) by (lia || exact Hm). apply andb_false_r. }
  rewrite (Z.add_nocarry_lxor _ _ Hland). symmetry. now apply Z.lxor_lor.
Qed.

(** The patterns [0x3f800000 | m] with a 23-bit [m] are the floats of
    [[1, 2)]: exponent of [1.0f], fraction [m]. *)
Lemma as_type_float_one_plus (m : Z) :
  0 <= m < 2 ^ 23 ->
  as_type_float (0x3f800000 .| m)%u32 =
  S754_finite false (Z.to_pos (0x800000 + m)) (-23).
Proof.
  intros Hm. assert (Hm' : 0 <= m < 8388608) by exact Hm.
  unfold U32.or. change 0x3f800000 with (Z.shiftl 127 23).
  rewrite lor_fraction by exact Hm.
  change (Z.shiftl 127 23) with 1065353216.
  unfold as_type_float. cbv zeta.
  assert (Hsign : Z.testbit (1065353216 + m) 31 = false).
  { apply (bits_above _ 31); [lia | | lia]. change (2 ^ 31) with 2147483648. lia. }
  assert (Hexp : Z.shiftr (1065353216 + m) 23 = 127).
  { rewrite Z.shiftr_div_pow2 by lia. change (2 ^ 23) with 8388608.
    symmetry. apply (Z.div_unique _ _ 127 m); lia. }
  assert (Hfrac : Z.land (1065353216 + m) 0x7fffff = m).
  { change 0x7fffff with (Z.ones 23). rewrite Z.land_ones by lia.
    change (2 ^ 23) with 8388608.
    symmetry. apply (Z.mod_unique _ _ 127 m); lia. }
  rewrite Hsign, Hexp, Hfrac.
  change (Z.land 127 0xff) with 127.
  change (127 =? 0) with false. change (127 =? 0xff) with false. cbv iota.
  change 0x800000 with (Z.shiftl 1 23). rewrite Z.lor_comm, lor_fraction by exact Hm.
  change (Z.shiftl 1 23) with 8388608.
  destruct (8388608 + m) as [| p | p] eqn:E; try lia. reflexivity.
Qed.

(** Subtracting [1.0] from such a float leaves the fraction, exactly. *)
Lemma sub_one_fraction (m : Z) :
  0 <= m < 2 ^ 23 ->
  (S754_finite false (Z.to_pos (0x800000 + m)) (-23) - F32.one)%f32 =
  binary_normalize F32.prec F32.emax m (-23) false.
Proof.
  intros Hm. assert (Hm' : 0 <= m < 8388608) by exact Hm.
  unfold F32.sub, F32.one, SFsub.
  change (Z.min (-23) (-23)) with (-23). cbv zeta.
  unfold shl_align. change (-23 - -23) with 0. cbn [fst cond_Zopp].
  rewrite Z2Pos.id by lia.
  replace (8388608 + m - 8388608) with m by lia. reflexivity.
Qed.

Lemma shr_9_fraction (w : Z) : U32.in_range w -> 0 <= (w >> 9)%u32 < 2 ^ 23.
Proof.
  unfold U32.in_range, U32.shr. rewrite modulus_eq. intros Hw.
  rewrite Z.shiftr_div_pow2 by lia.
  change (2 ^ 9) with 512. change (2 ^ 23) with 8388608.
  split.
  - apply Z.div_pos; lia.
  - apply Z.div_lt_upper_bound; lia.
Qed.

(** The float [Rand] builds from the word [w]. *)
Lemma unit_float_value (w : Z) :
  U32.in_range w ->
  (as_type_float (0x3f800000 .| (w >> 9))%u32 - F32.one)%f32 =
  binary_normalize F32.prec F32.emax (w >> 9)%u32 (-23) false.
Proof.
  intros Hw. pose proof (shr_9_fraction w Hw) as Hm.
  rewrite as_type_float_one_plus by exact Hm.
  now apply sub_one_fraction.
Qed.

Lemma fraction_in_unit_interval (m : Z) :
  0 <= m < 2 ^ 23 ->
  let f := binary_normalize F32.prec F32.emax m (-23) false in
  F32.valid f = true /\ F32.leb F32.zero f = true /\ F32.ltb f F32.one = true.
Proof.
  intros Hm. cbv zeta. destruct m as [| q | q]; [| | lia].
  - repeat split.
  - cbn [binary_normalize]. rewrite binary_round_fraction by apply Hm.
    pose proof (digits2_pos_le q 23 ltac:(lia) (proj2 Hm)) as Hd.
    split; [| split].
    + unfold F32.valid. cbn [valid_binary]. apply bounded_spec.
      rewrite digits2_pos_iter_xO. lia.
    + reflexivity.
    + unfold F32.ltb, SFltb, F32.one. cbn [SFcompare].
      rewrite (proj2 (Z.compare_lt_iff _ _)) by lia. reflexivity.
Qed.

Lemma Rand_run (rng : CRNG) :
  runState Rand rng =
  ((as_type_float (0x3f800000 .| (fst (runState RngNext rng) >> 9))%u32 - F32.one)%f32,
   snd (runState RngNext rng)).
Proof.
  unfold Rand. cbn [runState bind ret Monad_state].
  destruct (runState RngNext rng) as [r rng1]. reflexivity.
Qed.

End UnitInterval.

(** C3: for every 32-bit word [w] that [RngNext] hands to [Rand], the
    result is the float with pattern [0x3f800000 | (w >> 9)] minus [1.0],
    and it lies in [[0, 1)]: it is a number, not below zero, and strictly
    below one. *)
Theorem Rand_unit_interval (w : Z) :
  U32.in_range w ->
  let f := (as_type_float (0x3f800000 .| (w >> 9))%u32 - F32.one)%f32 in
  (forall rng : CRNG,
      fst (runState RngNext rng) = w ->
      runState Rand rng = (f, snd (runState RngNext rng))) /\
  F32.leb F32.zero f = true /\
  F32.ltb f F32.one = true.
Proof.
  intros Hw. cbv zeta. split.
  - intros rng Hr. rewrite Rand_run, Hr. reflexivity.
  - rewrite unit_float_value by exact Hw.
    apply (fraction_in_unit_interval (w >> 9)%u32), shr_9_fraction, Hw.
Qed.

Lemma Rand_unit_interval_witness :
  U32.in_range 0xffffffff /\
  let f := (as_type_float (0x3f800000 .| (0xffffffff >> 9))%u32 - F32.one)%f32 in
  (forall rng : CRNG,
      fst (runState RngNext rng) = 0xffffffff ->
      runState Rand rng = (f, snd (runState RngNext rng))) /\
  F32.leb F32.zero f = true /\
  F32.ltb f F32.one = true.
Proof.
  assert (H : U32.in_range 0xffffffff).
  { unfold U32.in_range. rewrite modulus_eq. lia. }
  split; [exact H | exact (Rand_unit_interval 0xffffffff H)].
Defined.

(** ** Interpolation at a corner *)

Section Corners.

Lemma agrees_refl (a : spec_float) : agrees a a.
Proof. now left. Qed.

(** A finite float times [0.0f] is a zero. *)
Lemma mul_zero (b : spec_float) :
  F32.finite b = true -> exists s, (b * F32.zero)%f32 = S754_zero s.
Proof.
  destruct b as [s | s | | s m e]; intros Hf; try discriminate Hf;
    eexists; reflexivity.
Qed.

(** Adding a zero keeps a float, up to the sign of a zero. *)
Lemma add_zero_r (r a : spec_float) (s : bool) :
  agrees r a -> agrees (r + S754_zero s)%f32 a.
Proof.
  intros [-> | [-> ->]].
  - destruct a as [[|] | sa | | sa m e], s; cbn; unfold agrees; auto.
  - destruct s; cbn; unfold agrees; auto.
Qed.

Lemma add_zero_l (a : spec_float) (s : bool) : agrees (S754_zero s + a)%f32 a.
Proof. destruct a as [[|] | sa | | sa m e], s; cbn; unfold agrees; auto. Qed.

Lemma zero_add_zero (s1 s2 : bool) :
  exists s, (S754_zero s1 + S754_zero s2)%f32 = S754_zero s.
Proof. destruct s1, s2; eexists; reflexivity. Qed.

(** One component of the blend, at each corner of the triangle. *)
Lemma blend_100 (a b c : spec_float) :
  F32.valid a = true -> F32.finite b = true -> F32.finite c = true ->
  agrees (a * F32.one + b * F32.zero + c * F32.zero)%f32 a.
Proof.
  intros Ha Hb Hc. rewrite (mul_one a Ha).
  destruct (mul_zero b Hb) as [sb ->]. destruct (mul_zero c Hc) as [sc ->].
  apply add_zero_r, add_zero_r, agrees_refl.
Qed.

Lemma blend_010 (a b c : spec_float) :
  F32.valid b = true -> F32.finite a = true -> F32.finite c = true ->
  agrees (a * F32.zero + b * F32.one + c * F32.zero)%f32 b.
Proof.
  intros Hb Ha Hc. rewrite (mul_one b Hb).
  destruct (mul_zero a Ha) as [sa ->]. destruct (mul_zero c Hc) as [sc ->].
  apply add_zero_r, add_zero_l.
Qed.

Lemma blend_001 (a b c : spec_float) :
  F32.valid c = true -> F32.finite a = true -> F32.finite b = true ->
  agrees (a * F32.zero + b * F32.zero + c * F32.one)%f32 c.
Proof.
  intros Hc Ha Hb. rewrite (mul_one c Hc).
  destruct (mul_zero a Ha) as [sa ->]. destruct (mul_zero b Hb) as [sb ->].
  destruct (zero_add_zero sa sb) as [s ->]. apply add_zero_l.
Qed.

Lemma Vertex_all_fields (P : spec_float -> bool) (v : Vertex) :
  Vertex_all P v = true ->
  (P (float3_x (position v)) = true /\ P (float3_y (position v)) = true /\
   P (float3_z (position v)) = true) /\
  (P (float3_x (normal v)) = true /\ P (float3_y (normal v)) = true /\
   P (float3_z (normal v)) = true) /\
  (P (float2_x (texcoord v)) = true /\ P (float2_y (texcoord v)) = true).
Proof.
  unfold Vertex_all, float3_all, float2_all.
  rewrite !andb_true_iff. tauto.
Qed.

Lemma Interpolate_100 (v0 v1 v2 : Vertex) :
  Vertex_valid v0 -> Vertex_finite v1 -> Vertex_finite v2 ->
  Vertex_agrees (Interpolate_float3 v0 v1 v2 weights_100) v0.
Proof.
  intros H0 H1 H2.
  apply Vertex_all_fields in H0, H1, H2.
  destruct H0 as [(? & ? & ?) [(? & ? & ?) (? & ?)]].
  destruct H1 as [(? & ? & ?) [(? & ? & ?) (? & ?)]].
  destruct H2 as [(? & ? & ?) [(? & ? & ?) (? & ?)]].
  unfold Interpolate_float3, weights_100; cbv zeta.
  repeat split; cbn [position normal texcoord float3_x float3_y float3_z
    float2_x float2_y Vec.add3 Vec.scale3 Vec.add2 Vec.scale2];
    now apply blend_100.
Qed.

Lemma Interpolate_010 (v0 v1 v2 : Vertex) :
  Vertex_valid v1 -> Vertex_finite v0 -> Vertex_finite v2 ->
  Vertex_agrees (Interpolate_float3 v0 v1 v2 weights_010) v1.
Proof.
  intros H1 H0 H2.
  apply Vertex_all_fields in H0, H1, H2.
  destruct H0 as [(? & ? & ?) [(? & ? & ?) (? & ?)]].
  destruct H1 as [(? & ? & ?) [(? & ? & ?) (? & ?)]].
  destruct H2 as [(? & ? & ?) [(? & ? & ?) (? & ?)]].
  unfold Interpolate_float3, weights_010; cbv zeta.
  repeat split; cbn [position normal texcoord float3_x float3_y float3_z
    float2_x float2_y Vec.add3 Vec.scale3 Vec.add2 Vec.scale2];
    now apply blend_010.
Qed.

Lemma Interpolate_001 (v0 v1 v2 : Vertex) :
  Vertex_valid v2 -> Vertex_finite v0 -> Vertex_finite v1 ->
  Vertex_agrees (Interpolate_float3 v0 v1 v2 weights_001) v2.
Proof.
  intros H2 H0 H1.
  apply Vertex_all_fields in H0, H1, H2.
  destruct H0 as [(? & ? & ?) [(? & ? & ?) (? & ?)]].
  destruct H1 as [(? & ? & ?) [(? & ? & ?) (? & ?)]].
  destruct H2 as [(? & ? & ?) [(? & ? & ?) (? & ?)]].
  unfold Interpolate_float3, weights_001; cbv zeta.
  repeat split; cbn [position normal texcoord float3_x float3_y float3_z
    float2_x float2_y Vec.add3 Vec.scale3 Vec.add2 Vec.scale2];
    now apply blend_001.
Qed.

End Corners.

Section CornersCompare.

Lemma eqb_refl (a : spec_float) : not_nan a = true -> F32.eqb a a = true.
Proof.
  unfold F32.eqb, SFeqb.
  destruct a as [s | s | | s m e]; intros Hn; try discriminate Hn.
  - reflexivity.
  - destruct s; reflexivity.
  - cbn [SFcompare]. rewrite Z.compare_refl, Pos.compare_cont_refl.
    destruct s; reflexivity.
Qed.

Lemma agrees_same (r a : spec_float) :
  not_nan a = true -> agrees r a -> same_number r a.
Proof.
  intros Hn Hag. split; [| exact Hag].
  destruct Hag as [-> | [-> ->]]; [now apply eqb_refl | reflexivity].
Qed.

Lemma Vertex_agrees_same (r a : Vertex) :
  Vertex_no_nan a -> Vertex_agrees r a -> Vertex_same r a.
Proof.
  intros Hn Hag. apply Vertex_all_fields in Hn.
  destruct Hn as [(? & ? & ?) [(? & ? & ?) (? & ?)]].
  destruct Hag as [(? & ? & ?) [(? & ? & ?) (? & ?)]].
  repeat split; first [assumption | now apply agrees_same].
Qed.

End CornersCompare.

(** C5, as stated, fails: with weights (1,0,0) an infinite coordinate in
    [v1] turns the matching coordinate of the result into NaN although
    [v0] has 0 there; the result is neither the value of [v0] nor equal
    to it as floats compare. *)
Lemma Interpolate_corner_not_exact :
  Interpolate_float3 origin_Vertex far_Vertex origin_Vertex weights_100
    <> origin_Vertex /\
  F32.eqb
    (float3_x (position
       (Interpolate_float3 origin_Vertex far_Vertex origin_Vertex weights_100)))
    (float3_x (position origin_Vertex)) = false.
Proof. split; [vm_compute; discriminate | vm_compute; reflexivity]. Qed.

(** C5, amended: for binary32 vertices, when every field of the two
    vertices weighted by zero is finite (no infinity, no NaN) and no field
    of the vertex weighted by one is a NaN, the three-weight overload at
    (1,0,0) returns a Vertex whose every field compares equal to the field
    of [v0] and is that very value, except that a negative zero of [v0]
    may come back as the positive zero; likewise [v1] at (0,1,0) and [v2]
    at (0,0,1). *)
Theorem Interpolate_corners (v0 v1 v2 : Vertex) :
  Vertex_valid v0 -> Vertex_valid v1 -> Vertex_valid v2 ->
  (Vertex_no_nan v0 -> Vertex_finite v1 -> Vertex_finite v2 ->
   Vertex_same (Interpolate_float3 v0 v1 v2 weights_100) v0) /\
  (Vertex_no_nan v1 -> Vertex_finite v0 -> Vertex_finite v2 ->
   Vertex_same (Interpolate_float3 v0 v1 v2 weights_010) v1) /\
  (Vertex_no_nan v2 -> Vertex_finite v0 -> Vertex_finite v1 ->
   Vertex_same (Interpolate_float3 v0 v1 v2 weights_001) v2).
Proof.
  intros H0 H1 H2. split; [| split]; intros Hn Ha Hb;
    apply Vertex_agrees_same; try exact Hn.
  - now apply Interpolate_100.
  - now apply Interpolate_010.
  - now apply Interpolate_001.
Qed.

Lemma Interpolate_corners_witness :
  Vertex_valid sample_Vertex /\ Vertex_valid negzero_Vertex /\
  Vertex_valid origin_Vertex /\
  Vertex_same
    (Interpolate_float3 sample_Vertex negzero_Vertex origin_Vertex weights_100)
    sample_Vertex /\
  Vertex_same
    (Interpolate_float3 sample_Vertex negzero_Vertex origin_Vertex weights_010)
    negzero_Vertex /\
  Vertex_same
    (Interpolate_float3 sample_Vertex negzero_Vertex origin_Vertex weights_001)
    origin_Vertex.
Proof.
  assert (Hs : Vertex_valid sample_Vertex) by reflexivity.
  assert (Hn : Vertex_valid negzero_Vertex) by reflexivity.
  assert (Ho : Vertex_valid origin_Vertex) by reflexivity.
  split; [exact Hs | split; [exact Hn | split; [exact Ho |]]].
  destruct (Interpolate_corners sample_Vertex negzero_Vertex origin_Vertex Hs Hn Ho)
    as (C0 & C1 & C2).
  split; [| split].
  - apply C0; reflexivity.
  - apply C1; reflexivity.
  - apply C2; reflexivity.
Defined.

(** * Further properties of the code *)

(** ** Runs stay on words *)

(** X1: from a state of 32-bit words, any number of successive calls of
    [RngNext] returns that many 32-bit words and leaves a state of 32-bit
    words. *)
Theorem RngNext_seq_in_range (n : nat) (rng : CRNG) :
  CRNG_in_range rng ->
  length (fst (runState (RngNext_seq n) rng)) = n /\
  Forall U32.in_range (fst (runState (RngNext_seq n) rng)) /\
  CRNG_in_range (snd (runState (RngNext_seq n) rng)).
Proof.
  revert rng. induction n as [| n IH]; intros rng Hr.
  - change (runState (RngNext_seq 0) rng) with (@nil Z, rng). cbn [fst snd length].
    split; [reflexivity | split; [constructor | exact Hr]].
  - rewrite RngNext_seq_S. cbn [fst snd length].
    destruct (RngNext_in_range rng Hr) as [Hw Hs].
    destruct (IH _ Hs) as (Hlen & Hall & Hst).
    split; [now rewrite Hlen | split; [now constructor | exact Hst]].
Qed.

Lemma RngNext_seq_in_range_witness :
  CRNG_in_range (InitCRND (mk_uint2 3 5) 7) /\
  length (fst (runState (RngNext_seq 4) (InitCRND (mk_uint2 3 5) 7))) = 4%nat /\
  Forall U32.in_range (fst (runState (RngNext_seq 4) (InitCRND (mk_uint2 3 5) 7))) /\
  CRNG_in_range (snd (runState (RngNext_seq 4) (InitCRND (mk_uint2 3 5) 7))).
Proof.
  assert (H : CRNG_in_range (InitCRND (mk_uint2 3 5) 7)).
  { vm_compute. repeat split; discriminate. }
  split; [exact H | exact (RngNext_seq_in_range 4 _ H)].
Defined.

(** ** The second seed word carries no state of its own *)

Lemma RngNext_seedY (rng : CRNG) : seedY_follows_seedX (snd (runState RngNext rng)).
Proof. destruct rng as [[sx sy]]. rewrite RngNext_run. reflexivity. Qed.

(** X2: after one or more calls of [RngNext], from any state, [Seed.y] is
    [Seed.x] rotated left by 13; the states [InitCRND] returns are of
    that kind too. *)
Theorem RngNext_seedY_follows_seedX :
  (forall (n : nat) (rng : CRNG),
      seedY_follows_seedX (snd (runState (RngNext_seq (S n)) rng))) /\
  (forall (id : uint2) (frameIndex : Z),
      seedY_follows_seedX (InitCRND id frameIndex)).
Proof.
  split.
  - induction n as [| n IH]; intros rng.
    + rewrite RngNext_seq_S. apply RngNext_seedY.
    + rewrite RngNext_seq_S. cbn [snd]. apply IH.
  - intros id frameIndex. unfold InitCRND. cbv zeta.
    change (execState RngNext ?s) with (snd (runState RngNext s)).
    apply RngNext_seedY.
Qed.

(** ** The returned word *)

Lemma RngNext_word (rng : CRNG) :
  fst (runState RngNext rng) = (x (Seed rng) * 0x9e3779bb)%u32.
Proof. destruct rng as [[sx sy]]. rewrite RngNext_run. reflexivity. Qed.

(** X3: the word [RngNext] returns is decided by [Seed.x] alone, and it
    decides [Seed.x]: two states of 32-bit words return the same word
    exactly when their [Seed.x] agree; the word is 0 only for [Seed.x = 0]. *)
Theorem RngNext_word_by_seedX (rng1 rng2 : CRNG) :
  CRNG_in_range rng1 -> CRNG_in_range rng2 ->
  (fst (runState RngNext rng1) = fst (runState RngNext rng2) <->
   x (Seed rng1) = x (Seed rng2)) /\
  (fst (runState RngNext rng1) = 0 <-> x (Seed rng1) = 0).
Proof.
  intros [H1 _] [H2 _]. rewrite !RngNext_word.
  assert (Hinv : forall a, U32.in_range a ->
            ((a * 0x9e3779bb) * inv_9e3779bb)%u32 = a).
  { intros a Ha. apply mul_mul_inverse; [reflexivity | exact Ha]. }
  split; split.
  - intros E. rewrite <- (Hinv _ H1), <- (Hinv _ H2). now rewrite E.
  - intros E. now rewrite E.
  - intros E. rewrite <- (Hinv _ H1), E. reflexivity.
  - intros E. rewrite E. reflexivity.
Qed.

Lemma RngNext_word_by_seedX_witness :
  CRNG_in_range (mk_CRNG (mk_uint2 7 1)) /\
  CRNG_in_range (mk_CRNG (mk_uint2 7 2)) /\
  (fst (runState RngNext (mk_CRNG (mk_uint2 7 1))) =
   fst (runState RngNext (mk_CRNG (mk_uint2 7 2))) <->
   x (Seed (mk_CRNG (mk_uint2 7 1))) = x (Seed (mk_CRNG (mk_uint2 7 2)))) /\
  (fst (runState RngNext (mk_CRNG (mk_uint2 7 1))) = 0 <->
   x (Seed (mk_CRNG (mk_uint2 7 1))) = 0).
Proof.
  assert (H1 : CRNG_in_range (mk_CRNG (mk_uint2 7 1))).
  { vm_compute. repeat split; discriminate. }
  assert (H2 : CRNG_in_range (mk_CRNG (mk_uint2 7 2))).
  { vm_compute. repeat split; discriminate. }
  split; [exact H1 | split; [exact H2 |]].
  exact (RngNext_word_by_seedX _ _ H1 H2).
Defined.

(** ** Packing the work item *)

Lemma shl_16_low_half (a : Z) : (a << 16)%u32 = ((a mod 65536) << 16)%u32.
Proof.
  unfold U32.shl, U32.wrap, U32.modulus.
  rewrite !Z.shiftl_mul_pow2 by lia.
  change (2 ^ 32) with (65536 * 2 ^ 16). change (2 ^ 16) with 65536.
  rewrite !Z.mul_mod_distr_r by lia.
  now rewrite Z.mod_mod by lia.
Qed.

(** X4: [InitCRND] reads [id.x] modulo [2^16] only: work items whose
    [id.x] differ by a multiple of 65536 are seeded alike. *)
Theorem InitCRND_id_x_low_half (id : uint2) (frameIndex : Z) :
  InitCRND id frameIndex =
  InitCRND (mk_uint2 (x id mod 65536) (y id)) frameIndex.
Proof.
  unfold InitCRND. cbv zeta. cbn [x y].
  now rewrite <- shl_16_low_half.
Qed.

(** ** Seeding, as a function of the frame index *)

Section FrameIndex.

Lemma xorshl_bit (k s i : Z) :
  0 <= k ->
  Z.testbit (xorshl k s) i =
  xorb (Z.testbit s i) ((i <? 32) && Z.testbit s (i - k)).
Proof.
  intros Hk. unfold xorshl, U32.xor, U32.shl, U32.wrap, U32.modulus.
  rewrite Z.lxor_spec. f_equal.
  destruct (Z.ltb_spec i 32) as [Hlt | Hge]; cbn [andb].
  - destruct (Z_lt_le_dec i 0) as [Hneg | Hpos].
    + rewrite !Z.testbit_neg_r by lia. reflexivity.
    + rewrite Z.mod_pow2_bits_low by lia. now rewrite Z.shiftl_spec.
  - apply Z.mod_pow2_bits_high. lia.
Qed.

Lemma xorshl_in_range (k s : Z) : U32.in_range s -> U32.in_range (xorshl k s).
Proof. intros Hs. unfold xorshl. auto with u32. Qed.

Lemma xorshl_twice (k s : Z) : 0 <= k -> xorshl k (xorshl k s) = xorshl (2 * k) s.
Proof.
  intros Hk. apply Z.bits_inj'. intros i Hi.
  rewrite !xorshl_bit by lia.
  replace (i - k - k) with (i - 2 * k) by lia.
  destruct (Z.ltb_spec i 32), (Z.ltb_spec (i - k) 32); try lia; cbn [andb];
    destruct (Z.testbit s i), (Z.testbit s (i - k)), (Z.testbit s (i - 2 * k));
    reflexivity.
Qed.

Lemma xorshl_high (k s : Z) : 32 <= k -> xorshl k s = s.
Proof.
  intros Hk. apply Z.bits_inj'. intros i Hi.
  rewrite xorshl_bit by lia.
  destruct (Z.ltb_spec i 32); cbn [andb].
  - rewrite (Z.testbit_neg_r s (i - k)) by lia. apply xorb_false_r.
  - apply xorb_false_r.
Qed.

Lemma xorshl_9_undo (s : Z) : xorshl 18 (xorshl 9 (xorshl 9 s)) = s.
Proof.
  rewrite (xorshl_twice 9), (xorshl_twice 18) by lia. now apply xorshl_high.
Qed.

Lemma xorshl_9_redo (r : Z) : xorshl 9 (xorshl 9 (xorshl 18 r)) = r.
Proof.
  rewrite (xorshl_twice 9), (xorshl_twice 18) by lia. now apply xorshl_high.
Qed.

Lemma xor_cancel_l (a b c : Z) : (a ^ b)%u32 = (a ^ c)%u32 -> b = c.
Proof.
  unfold U32.xor. intros E.
  assert (E' : Z.lxor a (Z.lxor a b) = Z.lxor a (Z.lxor a c)) by now rewrite E.
  now rewrite <- !Z.lxor_assoc, Z.lxor_nilpotent, !Z.lxor_0_l in E'.
Qed.

Lemma xor_cancel_r (a b c : Z) : (b ^ a)%u32 = (c ^ a)%u32 -> b = c.
Proof.
  unfold U32.xor. rewrite (Z.lxor_comm b), (Z.lxor_comm c). apply xor_cancel_l.
Qed.

Lemma packed_id_in_range (id : uint2) : uint2_in_range id -> U32.in_range (packed_id id).
Proof. intros [_ Hy]. unfold packed_id. auto with u32. Qed.

(** [Seed.x] after the warm-up step, from the two hashed seeds. *)
Lemma InitCRND_state (id : uint2) (frameIndex : Z) :
  let sx := Hash (packed_id id) in
  InitCRND id frameIndex =
  state_of_seedX
    (((sx << 26) .| (sx >> (32 - 26))) ^ xorshl 9 (Hash frameIndex ^ sx)%u32)%u32.
Proof.
  cbv zeta. unfold InitCRND. cbv zeta.
  change (execState RngNext ?s) with (snd (runState RngNext s)).
  rewrite RngNext_run. cbv zeta. cbn [snd]. fold (packed_id id).
  unfold state_of_seedX.
  match goal with
  | |- mk_CRNG (mk_uint2 ?a _) = mk_CRNG (mk_uint2 ?b _) => assert (E : a = b)
  end.
  { unfold xorshl, U32.xor. rewrite !Z.lxor_assoc. reflexivity. }
  rewrite E. reflexivity.
Qed.

Lemma state_of_seedX_inj (t1 t2 : Z) : state_of_seedX t1 = state_of_seedX t2 -> t1 = t2.
Proof. unfold state_of_seedX. intros E. now injection E. Qed.

Lemma InitCRND_frame_reaching (id : uint2) (t : Z) :
  uint2_in_range id -> U32.in_range t ->
  U32.in_range (frame_reaching id t) /\
  InitCRND id (frame_reaching id t) = state_of_seedX t.
Proof.
  intros Hid Ht.
  split; [unfold frame_reaching; cbv zeta; apply Hash_inv_in_range; auto with u32 |].
  - apply xor_in_range; [| apply Hash_in_range, packed_id_in_range, Hid].
    repeat apply xorshl_in_range.
    apply xor_in_range; [exact Ht |].
    pose proof (Hash_in_range _ (packed_id_in_range id Hid)).
    apply or_in_range; [apply shl_in_range | apply shr_in_range; [assumption | lia]].
  - rewrite InitCRND_state. cbv zeta. f_equal.
    pose proof (Hash_in_range _ (packed_id_in_range id Hid)) as Hsx.
    set (sx := Hash (packed_id id)) in *.
    set (rot := ((sx << 26) .| (sx >> (32 - 26)))%u32).
    assert (Hrot : U32.in_range rot).
    { subst rot. apply or_in_range; [apply shl_in_range |].
      apply shr_in_range; [assumption | lia]. }
    unfold frame_reaching. cbv zeta. fold sx. fold rot.
    rewrite Hash_Hash_inv.
    + rewrite xor_xor_cancel, xorshl_9_redo.
      unfold U32.xor. rewrite (Z.lxor_comm t rot), <- Z.lxor_assoc.
      now rewrite Z.lxor_nilpotent, Z.lxor_0_l.
    + apply xor_in_range; [| exact Hsx].
      repeat apply xorshl_in_range. now apply xor_in_range.
Qed.

Lemma RngNext_seq_zero_state (n : nat) :
  runState (RngNext_seq n) zero_state = (repeat 0 n, zero_state).
Proof.
  induction n as [| n IH]; [reflexivity |].
  rewrite RngNext_seq_S, RngNext_zero_state. cbn [fst snd]. now rewrite IH.
Qed.

End FrameIndex.

(** X5: for one work item, distinct frame indices give distinct generator
    states. *)
Theorem InitCRND_frames_distinct (id : uint2) (f1 f2 : Z) :
  uint2_in_range id -> U32.in_range f1 -> U32.in_range f2 ->
  f1 <> f2 -> InitCRND id f1 <> InitCRND id f2.
Proof.
  intros Hid H1 H2 Hne E. apply Hne.
  rewrite !InitCRND_state in E. cbv zeta in E.
  apply state_of_seedX_inj, xor_cancel_l in E.
  assert (E' : (Hash f1 ^ Hash (packed_id id))%u32 = (Hash f2 ^ Hash (packed_id id))%u32).
  { rewrite <- (xorshl_9_undo (Hash f1 ^ _)%u32), E. apply xorshl_9_undo. }
  apply xor_cancel_r in E'.
  rewrite <- (Hash_inv_Hash f1 H1), <- (Hash_inv_Hash f2 H2). now rewrite E'.
Qed.

Lemma InitCRND_frames_distinct_witness :
  uint2_in_range (mk_uint2 3 5) /\ U32.in_range 0 /\ U32.in_range 1 /\
  0 <> 1 /\ InitCRND (mk_uint2 3 5) 0 <> InitCRND (mk_uint2 3 5) 1.
Proof.
  assert (Hid : uint2_in_range (mk_uint2 3 5)).
  { vm_compute. repeat split; discriminate. }
  assert (H0 : U32.in_range 0) by (unfold U32.in_range; rewrite modulus_eq; lia).
  assert (H1 : U32.in_range 1) by (unfold U32.in_range; rewrite modulus_eq; lia).
  assert (Hne : 0 <> 1) by lia.
  split; [exact Hid | split; [exact H0 | split; [exact H1 | split; [exact Hne |]]]].
  exact (InitCRND_frames_distinct _ 0 1 Hid H0 H1 Hne).
Defined.

(** X6: for one work item, every state a step can leave is the seed of
    some frame index: for every 32-bit word [t] there is a frame index at
    which [InitCRND] returns the state with [Seed.x = t]. *)
Theorem InitCRND_reaches_every_seedX (id : uint2) (t : Z) :
  uint2_in_range id -> U32.in_range t ->
  exists frameIndex : Z,
    U32.in_range frameIndex /\
    Seed (InitCRND id frameIndex) = mk_uint2 t ((t << 13) .| (t >> (32 - 13)))%u32.
Proof.
  intros Hid Ht. exists (frame_reaching id t).
  destruct (InitCRND_frame_reaching id t Hid Ht) as [Hf ->].
  split; [exact Hf | reflexivity].
Qed.

Lemma InitCRND_reaches_every_seedX_witness :
  uint2_in_range (mk_uint2 3 5) /\ U32.in_range 12345 /\
  exists frameIndex : Z,
    U32.in_range frameIndex /\
    Seed (InitCRND (mk_uint2 3 5) frameIndex) =
    mk_uint2 12345 ((12345 << 13) .| (12345 >> (32 - 13)))%u32.
Proof.
  assert (Hid : uint2_in_range (mk_uint2 3 5)).
  { vm_compute. repeat split; discriminate. }
  assert (Ht : U32.in_range 12345) by (unfold U32.in_range; rewrite modulus_eq; lia).
  split; [exact Hid | split; [exact Ht |]].
  exact (InitCRND_reaches_every_seedX _ _ Hid Ht).
Defined.

(** X7: every work item has a frame index at which [InitCRND] returns the
    all-zero state, from which every call of [RngNext] returns 0. *)
Theorem InitCRND_can_seed_zero_state (id : uint2) :
  uint2_in_range id ->
  exists frameIndex : Z,
    U32.in_range frameIndex /\
    InitCRND id frameIndex = zero_state /\
    forall n : nat,
      fst (runState (RngNext_seq n) (InitCRND id frameIndex)) = repeat 0 n.
Proof.
  intros Hid.
  assert (H0 : U32.in_range 0) by (unfold U32.in_range; rewrite modulus_eq; lia).
  destruct (InitCRND_frame_reaching id 0 Hid H0) as [Hf E].
  exists (frame_reaching id 0).
  change (state_of_seedX 0) with zero_state in E.
  split; [exact Hf | split; [exact E |]].
  intros n. now rewrite E, RngNext_seq_zero_state.
Qed.

Lemma InitCRND_can_seed_zero_state_witness :
  uint2_in_range (mk_uint2 0 0) /\
  exists frameIndex : Z,
    U32.in_range frameIndex /\
    InitCRND (mk_uint2 0 0) frameIndex = zero_state /\
    forall n : nat,
      fst (runState (RngNext_seq n) (InitCRND (mk_uint2 0 0) frameIndex)) = repeat 0 n.
Proof.
  assert (Hid : uint2_in_range (mk_uint2 0 0)).
  { vm_compute. repeat split; discriminate. }
  split; [exact Hid | exact (InitCRND_can_seed_zero_state _ Hid)].
Defined.

(** ** Maps that respect xor are decided by the 32 powers of two *)

Section Linear.

Lemma lor_shiftl_low (a m k : Z) :
  0 <= k -> 0 <= m < 2 ^ k -> Z.lor (Z.shiftl a k) m = Z.shiftl a k + m.
Proof.
  intros Hk Hm.
  assert (Hland : Z.land (Z.shiftl a k) m = 0).
  { apply Z.bits_inj'. intros i Hi. rewrite Z.land_spec, Z.bits_0.
    destruct (Z_lt_le_dec i k) as [Hlt | Hge].
    - rewrite Z.shiftl_spec_low by exact Hlt. reflexivity.
    - rewrite (bits_above m k i) by (lia || exact Hm). apply andb_false_r. }
  rewrite (Z.add_nocarry_lxor _ _ Hland). symmetry. now apply Z.lxor_lor.
Qed.

Lemma lxor_pow2_low (n lo : Z) :
  0 <= n -> 0 <= lo < 2 ^ n -> Z.lxor (2 ^ n) lo = 2 ^ n + lo.
Proof.
  intros Hn Hlo. symmetry. apply Z.add_nocarry_lxor.
  apply Z.bits_inj'. intros i Hi. rewrite Z.land_spec, Z.bits_0.
  rewrite Z.pow2_bits_eqb by exact Hn.
  destruct (Z.eqb_spec n i) as [<- | Hne]; [| reflexivity].
  rewrite (bits_above lo n n) by (lia || exact Hlo). reflexivity.
Qed.

Lemma linear_at_0 (G : Z -> Z) : linear_on_words G -> G 0 = 0.
Proof.
  intros HG.
  assert (H0 : U32.in_range 0) by (unfold U32.in_range; rewrite modulus_eq; lia).
  pose proof (HG 0 0 H0 H0) as E. unfold U32.xor in E.
  rewrite (Z.lxor_nilpotent 0), (Z.lxor_nilpotent (G 0)) in E. exact E.
Qed.

Lemma linear_agree (G H : Z -> Z) :
  linear_on_words G -> linear_on_words H ->
  (forall k : nat, (k < 32)%nat -> G (2 ^ Z.of_nat k) = H (2 ^ Z.of_nat k)) ->
  forall a : Z, U32.in_range a -> G a = H a.
Proof.
  intros HG HH Hbasis.
  assert (Hn : forall n : nat, (n <= 32)%nat ->
            forall a, 0 <= a < 2 ^ Z.of_nat n -> G a = H a).
  { induction n as [| n IH]; intros Hle a Ha.
    - change (2 ^ Z.of_nat 0) with 1 in Ha.
      replace a with 0 by lia. now rewrite !linear_at_0.
    - rewrite Nat2Z.inj_succ, Z.pow_succ_r in Ha by lia.
      assert (Hpow : 0 < 2 ^ Z.of_nat n) by (apply Z.pow_pos_nonneg; lia).
      assert (Hpow32 : 2 ^ Z.of_nat n < 2 ^ 32) by (apply Z.pow_lt_mono_r; lia).
      pose proof (Z.div_mod a (2 ^ Z.of_nat n) ltac:(lia)) as Hdm.
      pose proof (Z.mod_pos_bound a (2 ^ Z.of_nat n) Hpow) as Hlo.
      assert (Hhi : 0 <= a / 2 ^ Z.of_nat n < 2).
      { split; [apply Z.div_pos; lia | apply Z.div_lt_upper_bound; lia]. }
      destruct (Z.eq_dec (a / 2 ^ Z.of_nat n) 0) as [E0 | E1].
      + apply IH; [lia |]. rewrite E0 in Hdm. lia.
      + replace (a / 2 ^ Z.of_nat n) with 1 in Hdm by lia.
        rewrite Z.mul_1_r, <- lxor_pow2_low in Hdm by lia.
        rewrite Hdm.
        assert (R1 : U32.in_range (2 ^ Z.of_nat n)).
        { unfold U32.in_range, U32.modulus. lia. }
        assert (R2 : U32.in_range (a mod 2 ^ Z.of_nat n)).
        { unfold U32.in_range, U32.modulus. lia. }
        change (Z.lxor ?p ?q) with (p ^ q)%u32.
        rewrite (HG _ _ R1 R2), (HH _ _ R1 R2).
        rewrite (Hbasis n) by lia. rewrite (IH ltac:(lia) _ Hlo). reflexivity. }
  intros a Ha. apply (Hn 32%nat); [lia | exact Ha].
Qed.

Lemma xor_columns_linear (cols : list Z) (i a b : Z) :
  xor_columns cols i (a ^ b)%u32 =
  (xor_columns cols i a ^ xor_columns cols i b)%u32.
Proof.
  revert i. induction cols as [| c cs IH]; intros i; cbn [xor_columns].
  - reflexivity.
  - rewrite IH. unfold U32.xor at 1. rewrite Z.lxor_spec.
    destruct (Z.testbit a i), (Z.testbit b i); cbn [xorb]; xor_bits.
Qed.

Lemma xor_columns_0 (cols : list Z) (i : Z) : xor_columns cols i 0 = 0.
Proof.
  revert i. induction cols as [| c cs IH]; intros i; cbn [xor_columns].
  - reflexivity.
  - now rewrite IH, Z.bits_0.
Qed.

Lemma shl_bit (s n i : Z) :
  0 <= n -> 0 <= i -> Z.testbit (s << n)%u32 i = (i <? 32) && Z.testbit s (i - n).
Proof.
  intros Hn Hi. unfold U32.shl, U32.wrap, U32.modulus.
  destruct (Z.ltb_spec i 32) as [Hlt | Hge]; cbn [andb].
  - rewrite Z.mod_pow2_bits_low by lia. now rewrite Z.shiftl_spec.
  - apply Z.mod_pow2_bits_high. lia.
Qed.

(** On a word, the two halves of a rotation share no bit. *)
Lemma rot_as_xor (s n : Z) :
  U32.in_range s -> 0 < n < 32 ->
  ((s << n) .| (s >> (32 - n)))%u32 = ((s << n) ^ (s >> (32 - n)))%u32.
Proof.
  intros Hs Hn. unfold U32.or, U32.xor. symmetry. apply Z.lxor_lor.
  apply Z.bits_inj'. intros i Hi. rewrite Z.land_spec, Z.bits_0.
  rewrite shl_bit by lia. unfold U32.shr. rewrite Z.shiftr_spec by lia.
  destruct (Z_lt_le_dec i n) as [Hlt | Hge].
  - rewrite (Z.testbit_neg_r s (i - n)) by lia. now rewrite andb_false_r.
  - rewrite (high_bits_clear s (i + (32 - n))) by (assumption || lia).
    apply andb_false_r.
Qed.

Lemma rot_in_range (s n : Z) :
  U32.in_range s -> 0 < n < 32 -> U32.in_range ((s << n) .| (s >> (32 - n)))%u32.
Proof.
  intros Hs Hn. apply or_in_range; [apply shl_in_range |].
  apply shr_in_range; [exact Hs | lia].
Qed.

Lemma rot_linear (n : Z) :
  0 < n < 32 -> linear_on_words (fun s => ((s << n) .| (s >> (32 - n)))%u32).
Proof.
  intros Hn a b Ha Hb. cbv beta.
  rewrite !rot_as_xor by (auto with u32).
  apply Z.bits_inj'. intros i Hi. unfold U32.xor at 1 4 5 6.
  rewrite !Z.lxor_spec, !shl_bit by lia.
  unfold U32.shr. rewrite !Z.shiftr_spec by lia.
  unfold U32.xor. rewrite !Z.lxor_spec.
  destruct (i <? 32), (Z.testbit a (i - n)), (Z.testbit b (i - n)),
    (Z.testbit a (i + (32 - n))), (Z.testbit b (i + (32 - n))); reflexivity.
Qed.

Lemma xorshl_linear (k a b : Z) :
  0 <= k -> xorshl k (a ^ b)%u32 = (xorshl k a ^ xorshl k b)%u32.
Proof.
  intros Hk. apply Z.bits_inj'. intros i Hi. unfold U32.xor at 2.
  rewrite Z.lxor_spec, !xorshl_bit by lia. unfold U32.xor.
  rewrite !Z.lxor_spec.
  destruct (i <? 32), (Z.testbit a i), (Z.testbit b i),
    (Z.testbit a (i - k)), (Z.testbit b (i - k)); reflexivity.
Qed.

Lemma seedX_mix_linear : linear_on_words seedX_mix.
Proof.
  intros a b Ha Hb. unfold seedX_mix.
  rewrite (rot_linear 26 ltac:(lia) a b Ha Hb), xorshl_linear by lia.
  xor_bits.
Qed.

Lemma seedX_change_linear : linear_on_words seedX_change.
Proof.
  intros a b Ha Hb. unfold seedX_change. cbv zeta.
  rewrite (rot_linear 26 ltac:(lia) a b Ha Hb).
  rewrite (rot_linear 13 ltac:(lia) a b Ha Hb).
  replace ((((a << 13) .| (a >> (32 - 13))) ^ ((b << 13) .| (b >> (32 - 13)))) ^ (a ^ b))%u32
    with ((((a << 13) .| (a >> (32 - 13))) ^ a) ^ (((b << 13) .| (b >> (32 - 13))) ^ b))%u32
    by xor_bits.
  rewrite xorshl_linear by lia. xor_bits.
Qed.

Lemma modulo_ones_linear : linear_on_words modulo_ones.
Proof.
  intros a b _ _. unfold modulo_ones. unfold U32.xor at 2.
  rewrite Z.lxor_spec.
  destruct (Z.testbit a 0), (Z.testbit b 0); cbn [xorb]; xor_bits.
Qed.

(** [seedX_mix] is undone by its table of columns. *)
Lemma seedX_mix_undo (a : Z) :
  U32.in_range a -> xor_columns seedX_mix_inverse 0 (seedX_mix a) = a.
Proof.
  apply (linear_agree (fun s => xor_columns seedX_mix_inverse 0 (seedX_mix s))
                      (fun s => s)).
  - intros p q Hp Hq. cbv beta.
    now rewrite (seedX_mix_linear p q Hp Hq), xor_columns_linear.
  - intros p q _ _. reflexivity.
  - intros k Hk.
    do 32 (destruct k as [| k]; [vm_compute; reflexivity |]). lia.
Qed.

(** [seedX_change] is undone by its table of columns, up to all ones. *)
Lemma seedX_change_undo (a : Z) :
  U32.in_range a ->
  xor_columns seedX_change_inverse 0 (seedX_change a) = modulo_ones a.
Proof.
  apply (linear_agree (fun s => xor_columns seedX_change_inverse 0 (seedX_change s))
                      modulo_ones).
  - intros p q Hp Hq. cbv beta.
    now rewrite (seedX_change_linear p q Hp Hq), xor_columns_linear.
  - exact modulo_ones_linear.
  - intros k Hk.
    do 32 (destruct k as [| k]; [vm_compute; reflexivity |]). lia.
Qed.

End Linear.

(** ** Seeding, as a function of the work item *)

Lemma packed_id_16 (id : uint2) :
  0 <= x id < 65536 -> 0 <= y id < 65536 -> packed_id id = x id * 65536 + y id.
Proof.
  intros Hx Hy. unfold packed_id, U32.or, U32.shl, U32.wrap, U32.modulus.
  assert (Hs : Z.shiftl (x id) 16 = x id * 65536).
  { rewrite Z.shiftl_mul_pow2 by lia. reflexivity. }
  rewrite Z.mod_small by (rewrite Hs; change (2 ^ 32) with 4294967296; lia).
  rewrite lor_shiftl_low by (change (2 ^ 16) with 65536; lia).
  now rewrite Hs.
Qed.

(** X8: in one frame, two distinct work items whose coordinates fit in 16
    bits are given distinct generator states. *)
Theorem InitCRND_ids_distinct (id1 id2 : uint2) (frameIndex : Z) :
  0 <= x id1 < 65536 -> 0 <= y id1 < 65536 ->
  0 <= x id2 < 65536 -> 0 <= y id2 < 65536 ->
  id1 <> id2 -> InitCRND id1 frameIndex <> InitCRND id2 frameIndex.
Proof.
  intros Hx1 Hy1 Hx2 Hy2 Hne E. apply Hne.
  assert (Hp1 : U32.in_range (packed_id id1)).
  { rewrite packed_id_16 by assumption. unfold U32.in_range. rewrite modulus_eq. lia. }
  assert (Hp2 : U32.in_range (packed_id id2)).
  { rewrite packed_id_16 by assumption. unfold U32.in_range. rewrite modulus_eq. lia. }
  rewrite !InitCRND_state in E. cbv zeta in E. apply state_of_seedX_inj in E.
  rewrite !xorshl_linear in E by lia.
  assert (Emix : seedX_mix (Hash (packed_id id1)) = seedX_mix (Hash (packed_id id2))).
  { apply (xor_cancel_r (xorshl 9 (Hash frameIndex))). unfold seedX_mix.
    match type of E with
    | ?l = ?r => transitivity l; [xor_bits | transitivity r; [exact E | xor_bits]]
    end. }
  assert (Eh : Hash (packed_id id1) = Hash (packed_id id2)).
  { rewrite <- (seedX_mix_undo (Hash (packed_id id1))) by now apply Hash_in_range.
    rewrite Emix. apply seedX_mix_undo. now apply Hash_in_range. }
  assert (Ep : packed_id id1 = packed_id id2).
  { rewrite <- (Hash_inv_Hash _ Hp1), Eh. now apply Hash_inv_Hash. }
  rewrite !packed_id_16 in Ep by assumption.
  destruct id1 as [x1 y1], id2 as [x2 y2]. cbn [x y] in *.
  assert (x1 = x2) by lia. assert (y1 = y2) by lia. now subst.
Qed.

Lemma InitCRND_ids_distinct_witness :
  0 <= x (mk_uint2 3 5) < 65536 /\ 0 <= y (mk_uint2 3 5) < 65536 /\
  0 <= x (mk_uint2 5 3) < 65536 /\ 0 <= y (mk_uint2 5 3) < 65536 /\
  mk_uint2 3 5 <> mk_uint2 5 3 /\
  InitCRND (mk_uint2 3 5) 7 <> InitCRND (mk_uint2 5 3) 7.
Proof.
  assert (H3 : 0 <= 3 < 65536) by lia. assert (H5 : 0 <= 5 < 65536) by lia.
  assert (Hne : mk_uint2 3 5 <> mk_uint2 5 3) by discriminate.
  split; [exact H3 | split; [exact H5 | split; [exact H5 | split; [exact H3 |]]]].
  split; [exact Hne |].
  exact (InitCRND_ids_distinct (mk_uint2 3 5) (mk_uint2 5 3) 7 H3 H5 H5 H3 Hne).
Defined.

(** ** States the step leaves unchanged *)

Lemma modulo_ones_0 (a : Z) : modulo_ones a = 0 -> a = 0 \/ a = 0xffffffff.
Proof.
  unfold modulo_ones, U32.xor. intros E. apply Z.lxor_eq in E.
  destruct (Z.testbit a 0); [now right | now left].
Qed.

(** X9: the states of 32-bit words that a call of [RngNext] leaves
    unchanged are the all-zero state and the all-ones state, and no
    other. *)
Theorem RngNext_fixed_points (rng : CRNG) :
  CRNG_in_range rng ->
  (snd (runState RngNext rng) = rng <-> rng = zero_state \/ rng = ones_state).
Proof.
  intros Hr. split.
  - destruct rng as [[sx sy]]. destruct Hr as [Hx Hy]. cbn [Seed x y] in Hx, Hy.
    rewrite RngNext_run. cbv zeta. cbn [snd]. intros E.
    pose proof (f_equal (fun r => x (Seed r)) E) as Ex.
    pose proof (f_equal (fun r => y (Seed r)) E) as Ey.
    cbv beta in Ex, Ey. cbn [Seed x y] in Ex, Ey. clear E.
    rewrite Ex in Ey. subst sy.
    assert (Ec : seedX_change sx = 0).
    { unfold seedX_change. cbv zeta.
      match type of Ex with
      | ?l = _ => transitivity (l ^ sx)%u32
      end.
      - unfold xorshl. xor_bits.
      - rewrite Ex. apply Z.lxor_nilpotent. }
    pose proof (seedX_change_undo sx Hx) as Hu.
    rewrite Ec, xor_columns_0 in Hu. symmetry in Hu.
    destruct (modulo_ones_0 sx Hu) as [-> | ->]; [left | right]; reflexivity.
  - intros [-> | ->]; vm_compute; reflexivity.
Qed.

Lemma RngNext_fixed_points_witness :
  CRNG_in_range ones_state /\
  (snd (runState RngNext ones_state) = ones_state <->
   ones_state = zero_state \/ ones_state = ones_state).
Proof.
  assert (H : CRNG_in_range ones_state).
  { vm_compute. repeat split; discriminate. }
  split; [exact H | exact (RngNext_fixed_points ones_state H)].
Defined.

(** ** The floats of [Rand], word by word *)

Section UnitFloats.

Lemma Rand_unit_float (rng : CRNG) :
  fst (runState Rand rng) = unit_float (fst (runState RngNext rng)).
Proof. rewrite Rand_run. reflexivity. Qed.

Lemma unit_float_normalize (w : Z) :
  U32.in_range w ->
  unit_float w = binary_normalize F32.prec F32.emax (w >> 9)%u32 (-23) false.
Proof. apply unit_float_value. Qed.

Lemma digits2_pos_upper (p : positive) : Zpos p < 2 ^ Zpos (digits2_pos p).
Proof.
  induction p as [p IH | p IH |]; cbn [digits2_pos].
  - rewrite Pos2Z.inj_succ, Z.pow_succ_r by lia. lia.
  - rewrite Pos2Z.inj_succ, Z.pow_succ_r by lia. lia.
  - simpl. lia.
Qed.

Lemma digits2_pos_mono (p q : positive) :
  Zpos p <= Zpos q -> Zpos (digits2_pos p) <= Zpos (digits2_pos q).
Proof.
  intros Hpq. apply digits2_pos_le; [lia |].
  pose proof (digits2_pos_upper q). lia.
Qed.

Lemma iter_xO_Z (p n : positive) : Zpos (Pos.iter xO p n) = Zpos p * 2 ^ Zpos n.
Proof.
  induction n as [| n IH] using Pos.peano_ind.
  - simpl. lia.
  - rewrite Pos.iter_succ, Pos2Z.inj_xO, IH, Pos2Z.inj_succ, Z.pow_succ_r by lia.
    lia.
Qed.

(** Normalised fractions are ordered as the fractions are. *)
Lemma normalize_lt (m1 m2 : Z) :
  0 <= m1 < m2 -> m2 < 2 ^ 23 ->
  F32.ltb (binary_normalize F32.prec F32.emax m1 (-23) false)
          (binary_normalize F32.prec F32.emax m2 (-23) false) = true.
Proof.
  intros H12 H2. destruct m2 as [| q2 | q2]; try lia.
  cbn [binary_normalize]. rewrite (binary_round_fraction q2) by exact H2.
  destruct m1 as [| q1 | q1]; try lia; [reflexivity |].
  cbn [binary_normalize]. rewrite (binary_round_fraction q1) by lia.
  pose proof (digits2_pos_mono q1 q2 ltac:(lia)) as Hd.
  pose proof (digits2_pos_le q2 23 ltac:(lia) H2) as Hd2.
  unfold F32.ltb, SFltb. cbn [SFcompare].
  destruct (Z.eq_dec (Zpos (digits2_pos q1)) (Zpos (digits2_pos q2))) as [E | Hne].
  - injection E as E. rewrite E, Z.compare_refl.
    change (Pos.compare_cont Eq ?a ?b) with (a ?= b)%positive.
    assert (Hlt : (Pos.iter xO q1 (Z.to_pos (24 - Zpos (digits2_pos q2)))
                   < Pos.iter xO q2 (Z.to_pos (24 - Zpos (digits2_pos q2))))%positive).
    { match goal with |- (?a < ?b)%positive => change (Zpos a < Zpos b) end.
      rewrite !iter_xO_Z.
      apply Z.mul_lt_mono_pos_r; [apply Z.pow_pos_nonneg; lia | lia]. }
    now rewrite (proj2 (Pos.compare_lt_iff _ _) Hlt).
  - rewrite (proj2 (Z.compare_lt_iff _ _)) by lia. reflexivity.
Qed.

Lemma ltb_leb (a b : spec_float) : F32.ltb a b = true -> F32.leb a b = true.
Proof.
  unfold F32.ltb, F32.leb, SFltb, SFleb.
  destruct (SFcompare a b) as [[| |] |]; intros H; try discriminate H; reflexivity.
Qed.

End UnitFloats.

(** X10: [Rand] is strictly increasing in the top 23 bits of the word it
    gets from [RngNext]: a word with a larger [w >> 9] gives a strictly
    larger float, so the [2^23] possible fractions give [2^23] distinct
    floats. The low 9 bits are not used. *)
Theorem Rand_increasing (w1 w2 : Z) :
  U32.in_range w1 -> U32.in_range w2 ->
  (forall rng : CRNG, fst (runState Rand rng) = unit_float (fst (runState RngNext rng))) /\
  ((w1 >> 9)%u32 < (w2 >> 9)%u32 -> F32.ltb (unit_float w1) (unit_float w2) = true) /\
  ((w1 >> 9)%u32 = (w2 >> 9)%u32 -> unit_float w1 = unit_float w2).
Proof.
  intros H1 H2. split; [exact Rand_unit_float | split].
  - intros Hlt. rewrite !unit_float_normalize by assumption.
    pose proof (shr_9_fraction w1 H1). pose proof (shr_9_fraction w2 H2).
    apply normalize_lt; lia.
  - intros E. unfold unit_float. now rewrite E.
Qed.

Lemma Rand_increasing_witness :
  U32.in_range 1000 /\ U32.in_range 2000 /\
  (forall rng : CRNG, fst (runState Rand rng) = unit_float (fst (runState RngNext rng))) /\
  ((1000 >> 9)%u32 < (2000 >> 9)%u32 -> F32.ltb (unit_float 1000) (unit_float 2000) = true) /\
  ((1000 >> 9)%u32 = (2000 >> 9)%u32 -> unit_float 1000 = unit_float 2000).
Proof.
  assert (H1 : U32.in_range 1000) by (unfold U32.in_range; rewrite modulus_eq; lia).
  assert (H2 : U32.in_range 2000) by (unfold U32.in_range; rewrite modulus_eq; lia).
  split; [exact H1 | split; [exact H2 | exact (Rand_increasing 1000 2000 H1 H2)]].
Defined.

(** X11: [Rand] returns exactly [+0.0] when the word of [RngNext] is
    below 512, and a binary32 number strictly above zero otherwise. *)
Theorem Rand_zero_below_512 (w : Z) :
  U32.in_range w ->
  (forall rng : CRNG,
      fst (runState RngNext rng) = w ->
      runState Rand rng = (unit_float w, snd (runState RngNext rng))) /\
  F32.valid (unit_float w) = true /\
  (w < 512 -> unit_float w = F32.zero) /\
  (512 <= w -> F32.ltb F32.zero (unit_float w) = true).
Proof.
  intros Hw. split.
  { intros rng Hr. rewrite Rand_run, Hr. reflexivity. }
  pose proof (shr_9_fraction w Hw) as Hm.
  rewrite unit_float_normalize by exact Hw.
  split; [apply (fraction_in_unit_interval _ Hm) | split].
  - intros Hlt. replace (w >> 9)%u32 with 0; [reflexivity |].
    unfold U32.shr. rewrite Z.shiftr_div_pow2 by lia. change (2 ^ 9) with 512.
    symmetry. apply Z.div_small. unfold U32.in_range in Hw. lia.
  - intros Hge.
    change F32.zero with (binary_normalize F32.prec F32.emax 0 (-23) false).
    apply normalize_lt; [| lia]. split; [lia |].
    unfold U32.shr. rewrite Z.shiftr_div_pow2 by lia. change (2 ^ 9) with 512.
    apply Z.div_str_pos. lia.
Qed.

Lemma Rand_zero_below_512_witness :
  U32.in_range 0 /\
  fst (runState RngNext zero_state) = 0 /\
  runState Rand zero_state = (unit_float 0, snd (runState RngNext zero_state)) /\
  F32.valid (unit_float 0) = true /\
  unit_float 0 = F32.zero /\
  (512 <= 0 -> F32.ltb F32.zero (unit_float 0) = true).
Proof.
  assert (H : U32.in_range 0) by (unfold U32.in_range; rewrite modulus_eq; lia).
  assert (Hr : fst (runState RngNext zero_state) = 0) by (vm_compute; reflexivity).
  assert (Hlt : 0 < 512) by lia.
  destruct (Rand_zero_below_512 0 H) as (Hrun & Hv & Hz & Hp).
  split; [exact H | split; [exact Hr | split; [exact (Hrun zero_state Hr) |]]].
  split; [exact Hv | split; [exact (Hz Hlt) | exact Hp]].
Defined.

(** X12: [Rand] never returns more than [1 - 2^-23]; it returns that
    float when the top 23 bits of the word of [RngNext] are all set. *)
Theorem Rand_at_most_largest (w : Z) :
  U32.in_range w ->
  (forall rng : CRNG,
      fst (runState RngNext rng) = w ->
      runState Rand rng = (unit_float w, snd (runState RngNext rng))) /\
  F32.leb (unit_float w) largest_unit_float = true /\
  (0xfffffe00 <= w -> unit_float w = largest_unit_float).
Proof.
  intros Hw. split.
  { intros rng Hr. rewrite Rand_run, Hr. reflexivity. }
  pose proof (shr_9_fraction w Hw) as Hm.
  assert (Htop : 0xfffffe00 <= w -> (w >> 9)%u32 = 0x7fffff).
  { intros Hge. unfold U32.shr. rewrite Z.shiftr_div_pow2 by lia.
    change (2 ^ 9) with 512. symmetry.
    unfold U32.in_range in Hw. rewrite modulus_eq in Hw.
    apply (Z.div_unique w 512 0x7fffff (w - 0xfffffe00)); lia. }
  assert (Elargest : binary_normalize F32.prec F32.emax 0x7fffff (-23) false
                     = largest_unit_float) by (vm_compute; reflexivity).
  rewrite unit_float_normalize by exact Hw. split.
  - destruct (Z.eq_dec (w >> 9)%u32 0x7fffff) as [E | Hne].
    + rewrite E, Elargest. reflexivity.
    + apply ltb_leb. rewrite <- Elargest.
      apply normalize_lt; [| reflexivity]. change (2 ^ 23) with 8388608 in Hm. lia.
  - intros Hge. now rewrite (Htop Hge).
Qed.

Lemma Rand_at_most_largest_witness :
  U32.in_range 0xffffffff /\
  fst (runState RngNext (mk_CRNG (mk_uint2 0x418c9c8d 0))) = 0xffffffff /\
  runState Rand (mk_CRNG (mk_uint2 0x418c9c8d 0)) =
    (unit_float 0xffffffff, snd (runState RngNext (mk_CRNG (mk_uint2 0x418c9c8d 0)))) /\
  F32.leb (unit_float 0xffffffff) largest_unit_float = true /\
  unit_float 0xffffffff = largest_unit_float.
Proof.
  assert (H : U32.in_range 0xffffffff).
  { unfold U32.in_range. rewrite modulus_eq. lia. }
  assert (Hr : fst (runState RngNext (mk_CRNG (mk_uint2 0x418c9c8d 0))) = 0xffffffff)
    by (vm_compute; reflexivity).
  assert (Hge : 0xfffffe00 <= 0xffffffff) by lia.
  destruct (Rand_at_most_largest 0xffffffff H) as (Hrun & Hle & Htop).
  split; [exact H | split; [exact Hr |]].
  split; [exact (Hrun _ Hr) | split; [exact Hle | exact (Htop Hge)]].
Defined.

(** ** The two-weight overload at the corners *)

(** X13: for binary32 vertices, when every field of the two other
    vertices is finite and no field of the selected vertex is a NaN, the
    two-weight overload returns [v0] at weights (1,0), [v1] at (0,1) and
    [v2] at (0,0): every field compares equal to the selected one and is
    that very value, except that a negative zero may come back as the
    positive zero. *)
Theorem Interpolate_float2_corners (v0 v1 v2 : Vertex) :
  Vertex_valid v0 -> Vertex_valid v1 -> Vertex_valid v2 ->
  (Vertex_no_nan v0 -> Vertex_finite v1 -> Vertex_finite v2 ->
   Vertex_same (Interpolate_float2 v0 v1 v2 (mk_float2 F32.one F32.zero)) v0) /\
  (Vertex_no_nan v1 -> Vertex_finite v0 -> Vertex_finite v2 ->
   Vertex_same (Interpolate_float2 v0 v1 v2 (mk_float2 F32.zero F32.one)) v1) /\
  (Vertex_no_nan v2 -> Vertex_finite v0 -> Vertex_finite v1 ->
   Vertex_same (Interpolate_float2 v0 v1 v2 (mk_float2 F32.zero F32.zero)) v2).
Proof.
  intros H0 H1 H2. rewrite !Interpolate_float2_as_float3.
  replace (F32.one - F32.one - F32.zero)%f32 with F32.zero by (vm_compute; reflexivity).
  replace (F32.one - F32.zero - F32.one)%f32 with F32.zero by (vm_compute; reflexivity).
  replace (F32.one - F32.zero - F32.zero)%f32 with F32.one by (vm_compute; reflexivity).
  split; [| split]; intros Hn Ha Hb; apply Vertex_agrees_same; try exact Hn.
  - now apply Interpolate_100.
  - now apply Interpolate_010.
  - now apply Interpolate_001.
Qed.

Lemma Interpolate_float2_corners_witness :
  Vertex_valid sample_Vertex /\ Vertex_valid negzero_Vertex /\
  Vertex_valid origin_Vertex /\
  Vertex_same
    (Interpolate_float2 sample_Vertex negzero_Vertex origin_Vertex
       (mk_float2 F32.one F32.zero))
    sample_Vertex /\
  Vertex_same
    (Interpolate_float2 sample_Vertex negzero_Vertex origin_Vertex
       (mk_float2 F32.zero F32.one))
    negzero_Vertex /\
  Vertex_same
    (Interpolate_float2 sample_Vertex negzero_Vertex origin_Vertex
       (mk_float2 F32.zero F32.zero))
    origin_Vertex.
Proof.
  assert (Hs : Vertex_valid sample_Vertex) by reflexivity.
  assert (Hn : Vertex_valid negzero_Vertex) by reflexivity.
  assert (Ho : Vertex_valid origin_Vertex) by reflexivity.
  split; [exact Hs | split; [exact Hn | split; [exact Ho |]]].
  destruct (Interpolate_float2_corners sample_Vertex negzero_Vertex origin_Vertex
              Hs Hn Ho) as (C0 & C1 & C2).
  split; [| split].
  - apply C0; reflexivity.
  - apply C1; reflexivity.
  - apply C2; reflexivity.
Defined.

(** ** Work items beyond 16 bits *)

Lemma packed_id_fold (id : uint2) :
  U32.in_range (y id) ->
  packed_id id =
  packed_id (mk_uint2 ((x id .| (y id >> 16))%u32 mod 65536) (y id mod 65536)).
Proof.
  intros Hy. unfold packed_id. cbn [x y]. rewrite <- shl_16_low_half.
  apply Z.bits_inj'. intros i Hi. unfold U32.or.
  rewrite !Z.lor_spec, !shl_bit by lia.
  change 65536 with (2 ^ 16).
  destruct (Z_lt_le_dec i 16) as [Hlo | Hhi].
  - rewrite !(Z.testbit_neg_r _ (i - 16)) by lia.
    rewrite Z.mod_pow2_bits_low by lia. reflexivity.
  - rewrite Z.mod_pow2_bits_high by lia.
    rewrite Z.lor_spec. unfold U32.shr. rewrite Z.shiftr_spec by lia.
    replace (i - 16 + 16) with i by lia.
    destruct (Z.ltb_spec i 32) as [Hlt | Hge]; cbn [andb orb].
    + now rewrite orb_false_r.
    + now rewrite (high_bits_clear (y id) i) by (assumption || lia).
Qed.

(** X15: every work item is seeded like one whose coordinates fit in 16
    bits: the high half of [id.y] is or-ed onto [id.x], and what is left
    above 16 bits of either coordinate is not read. *)
Theorem InitCRND_id_folds_to_16_bits (id : uint2) (frameIndex : Z) :
  U32.in_range (y id) ->
  let folded := mk_uint2 ((x id .| (y id >> 16))%u32 mod 65536) (y id mod 65536) in
  0 <= x folded < 65536 /\ 0 <= y folded < 65536 /\
  InitCRND id frameIndex = InitCRND folded frameIndex.
Proof.
  intros Hy. cbv zeta. cbn [x y].
  split; [apply Z.mod_pos_bound; lia | split; [apply Z.mod_pos_bound; lia |]].
  unfold InitCRND. cbv zeta.
  fold (packed_id id).
  fold (packed_id (mk_uint2 ((x id .| (y id >> 16))%u32 mod 65536) (y id mod 65536))).
  now rewrite <- packed_id_fold.
Qed.

Lemma InitCRND_id_folds_to_16_bits_witness :
  U32.in_range (y (mk_uint2 1 0x20003)) /\
  let folded :=
    mk_uint2 ((x (mk_uint2 1 0x20003) .| (y (mk_uint2 1 0x20003) >> 16))%u32 mod 65536)
             (y (mk_uint2 1 0x20003) mod 65536) in
  0 <= x folded < 65536 /\ 0 <= y folded < 65536 /\
  InitCRND (mk_uint2 1 0x20003) 9 = InitCRND folded 9.
Proof.
  assert (H : U32.in_range (y (mk_uint2 1 0x20003))).
  { cbn [y]. unfold U32.in_range. rewrite modulus_eq. lia. }
  split; [exact H | exact (InitCRND_id_folds_to_16_bits (mk_uint2 1 0x20003) 9 H)].
Defined.
